(** * The schema-migration engine of package [migrations]

    A shallow embedding of [AppliedMigrations], [PendingMigrations],
    [HasPendingMigrations], [Migrator.Apply], [MarshalMigrationPayload] and
    [UnmarshalMigrationPayload], together with the unit [removeCliqueBucket]
    and the units of the package's tests.

    Conventions.
    - A Go [string] and a [[]byte] used as a key are both byte sequences and
      are modelled by [string]; a [[]byte] used as a value is a [list Z] of
      8-bit numbers, and a possibly-nil [[]byte] is an [option].
    - The key-value store is kept in memory and never reports an I/O error,
      so the [if err != nil] checks that follow a store call have no
      counterpart here.  Errors that originate in the engine or in a unit
      body are modelled in full.
    - [Apply] threads the committed database, the open read-write
      transaction, the captured variable [commitFuncCalled] and the log
      through a state monad. *)

From Stdlib Require Import ZArith Lia.
From stdpp Require Import base gmap strings list fin_maps.

Abbreviation bytes := (list Z).
Abbreviation Bucket := (gmap string (list Z)).
Abbreviation Store := (gmap string (gmap string (list Z))).

(** ** Errors *)

(** The three package-level error values. *)
Inductive sentinel :=
| ErrMigrationNonUniqueName
| ErrMigrationCommitNotCalled
| ErrMigrationETLFilesDeleted.

Definition sentinel_text (s : sentinel) : string :=
  match s with
  | ErrMigrationNonUniqueName => "please provide unique migration name"
  | ErrMigrationCommitNotCalled => "migration commit function was not called"
  | ErrMigrationETLFilesDeleted =>
      "db migration progress was interrupted after extraction step and ETL files was deleted, please contact development team for help or re-sync from scratch"
  end.

(** A Go [error]: the package-level value it wraps through [%w], if any, and
    its message. *)
Record error := MkError { wraps : option sentinel; Error : string }.

(** [errors.Is(e, s)] for a package-level value [s]. *)
Definition errors_Is (e : error) (s : sentinel) : bool :=
  match wraps e with
  | Some s' =>
      match s, s' with
      | ErrMigrationNonUniqueName, ErrMigrationNonUniqueName
      | ErrMigrationCommitNotCalled, ErrMigrationCommitNotCalled
      | ErrMigrationETLFilesDeleted, ErrMigrationETLFilesDeleted => true
      | _, _ => false
      end
  | None => false
  end.

(** [fmt.Errorf("%w, duplicate: %s", ErrMigrationNonUniqueName, name)] *)
Definition Errorf_duplicate (name : string) : error :=
  MkError (Some ErrMigrationNonUniqueName)
          (sentinel_text ErrMigrationNonUniqueName +:+ ", duplicate: " +:+ name).

(** [fmt.Errorf("%w: %s", ErrMigrationCommitNotCalled, name)] *)
Definition Errorf_not_called (name : string) : error :=
  MkError (Some ErrMigrationCommitNotCalled)
          (sentinel_text ErrMigrationCommitNotCalled +:+ ": " +:+ name).

(** ** Names of package [dbutils] *)

(** Modelled from the spec: the bucket names and the version key are
    constants of package [dbutils], which is not part of the sources at hand.
    The spec asks for a dedicated "migrations" namespace, a separate
    "database info" namespace with one fixed key, and two stage-progress
    namespaces; the concrete spellings below only have to be distinct. *)
Module dbutils.
Definition Migrations : string := "migrations".
Definition DatabaseInfoBucket : string := "DBINFO".
Definition DBSchemaVersionKey : string := "dbVersion".
Definition SyncStageProgress : string := "SSP2".
Definition SyncStageUnwind : string := "SSU2".
Definition CliqueBucket : string := "clique-".
End dbutils.

(** [types.VersionReply]: three [uint32] fields. *)
Record Version := MkVersion { Major : Z; Minor : Z; Patch : Z }.

(** What the engine takes from outside the package: [path.Join], the list
    [stages.AllStages], the CBOR codec of [github.com/ugorji/go/codec] at type
    [map[string][]byte], and the two schema versions of [dbutils]. *)
Class Externals := {
  path_Join : list string → string;
  stages_AllStages : list string;
  cbor_Encode : gmap string (list Z) → list Z;
  cbor_Decode : list Z → gmap string (list Z) + error;
  DBSchemaVersionMDBX : Version;
  DBSchemaVersionLMDB : Version
}.

(** ** The store adapter *)

(** Modelled from the spec: bucket-scoped [Get], [Put], [Delete] and the
    bucket-management operations [BucketExists], [DropBuckets],
    [ClearBuckets] of package [ethdb], over a map from bucket names to
    buckets.  A missing key reads as nil; [Put] into a bucket that does not
    exist yet creates it. *)
Definition store_get (s : Store) (bucket key : string) : option bytes :=
  s !! bucket ≫= (.!! key).

Definition store_put (s : Store) (bucket key : string) (value : bytes) : Store :=
  <[bucket := <[key := value]> (default ∅ (s !! bucket))]> s.

Definition store_delete (s : Store) (bucket key : string) : Store :=
  alter (delete key) bucket s.

Definition store_exists (s : Store) (bucket : string) : bool :=
  bool_decide (is_Some (s !! bucket)).

Definition store_drop (s : Store) (bucket : string) : Store :=
  delete bucket s.

Definition store_clear (s : Store) (bucket : string) : Store :=
  <[bucket := ∅]> s.

(** Modelled from the spec: [Walk(bucket, nil, 0, visitor)] with a visitor
    that always answers [(true, nil)], as the only visitor of this package
    does: every entry of the bucket is visited once. *)
Definition store_walk {A} (s : Store) (bucket : string)
    (visitor : string → bytes → A → A) (a : A) : A :=
  map_fold visitor a (default ∅ (s !! bucket)).

(** [len(v)] and [common.CopyBytes(v)] of a possibly-nil slice. *)
Definition len (v : option bytes) : nat := from_option length 0 v.
Definition CopyBytes (v : option bytes) : bytes := default [] v.

(** ** Migration units *)

(** The body of a unit, [func(db, tmpdir, progress, OnLoadCommit) error], as
    the tree of the calls it makes on its transaction handle [db] and on the
    commit handler, ending in the error it returns.  Each continuation
    receives the result of the call. *)
Inductive Script :=
| Return (err : option error)
| GetOne (bucket key : string) (k : option bytes → Script)
| Put (bucket key : string) (value : bytes) (k : Script)
| Delete (bucket key : string) (k : Script)
| BucketExists (bucket : string) (k : bool → Script)
| DropBuckets (bucket : string) (k : Script)
| ClearBuckets (bucket : string) (k : Script)
| OnLoadCommit (key : option bytes) (isDone : bool) (k : option error → Script).

Record Migration := MkMigration {
  Name : string;
  Up : string → option bytes → Script   (* tmpdir, progress *)
}.

Record Migrator := MkMigrator { Migrations : list Migration }.

(** [removeCliqueBucket] of remove_clique.go. *)
Definition removeCliqueBucket : Migration :=
  MkMigration "remove_clique_bucket" (λ tmpdir progress,
    BucketExists dbutils.CliqueBucket (λ exists_,
      if negb exists_ then OnLoadCommit None true Return
      else DropBuckets dbutils.CliqueBucket (OnLoadCommit None true Return))).

(** ** Listing queries *)

Definition progress_prefix : string := "_progress_".

Definition AppliedMigrations (db : Store) (withPayload : bool) : gmap string bytes :=
  store_walk db dbutils.Migrations (λ k v applied,
    if String.prefix progress_prefix k then applied
    else if withPayload then <[k := v]> applied
    else <[k := []]> applied) ∅.

Definition is_applied (applied : gmap string bytes) (name : string) : bool :=
  match applied !! name with Some _ => true | None => false end.

(** [make([]Migration, 0, capacity)]: the capacity of a slice cannot be
    observed. *)
Definition make_pending (capacity : nat) : list Migration := [].

Definition PendingMigrations (m : Migrator) (db : Store) : list Migration :=
  let applied := AppliedMigrations db false in
  let counter :=
    foldl (λ counter v, if is_applied applied (Name v) then counter else S counter)
          0 (Migrations m) in
  foldl (λ pending v, if is_applied applied (Name v) then pending else pending ++ [v])
        (make_pending counter)
        (Migrations m).

Definition HasPendingMigrations (m : Migrator) (db : Store) : bool :=
  bool_decide (0 < length (PendingMigrations m db)).

(** ** The payload codec *)

Section Engine.
Context {env : Externals}.

(** One round of the loop over [stages.AllStages]. *)
Definition marshal_stage (db : Store) (s : gmap string bytes) (stage : string)
    : gmap string bytes :=
  let v := store_get db dbutils.SyncStageProgress stage in
  let s := if bool_decide (0 < len v) then <[stage := CopyBytes v]> s else s in
  let v := store_get db dbutils.SyncStageUnwind stage in
  if bool_decide (0 < len v) then <["unwind_" +:+ stage := CopyBytes v]> s else s.

Definition MarshalMigrationPayload (db : Store) : bytes :=
  cbor_Encode (foldl (marshal_stage db) ∅ stages_AllStages).

Definition UnmarshalMigrationPayload (data : bytes) : gmap string bytes + error :=
  match cbor_Decode data with
  | inl s => inl s
  | inr err => inr err
  end.

(** ** The state threaded through [Apply] *)

(** What a run leaves behind for inspection: the two [log.Info] lines of the
    loop, the final [log.Info] line, and three ghost events that exist only
    to state properties: one for every invocation of the commit handler, one
    for every Applied-Migration Record the handler writes, and one for every
    return of a unit body. *)
Inductive Event :=
| LogInfo (msg name : string)
| LogUpdated (version : Version)
| Handshake (name : string) (key : option bytes) (isDone : bool)
| Recorded (name : string) (payload : bytes)
| Returned (name : string) (err : option error).

Record State := MkState {
  db : Store;                 (* what is committed to the database *)
  tx : Store;                 (* what the open read-write transaction sees *)
  commitFuncCalled : bool;
  trace : list Event
}.

Definition M (A : Type) : Type := State → A * State.

Definition ret {A} (a : A) : M A := λ st, (a, st).
Definition bind {A B} (f : A → M B) (c : M A) : M B :=
  λ st, let '(a, st') := c st in f a st'.

#[local] Instance M_ret : MRet M := @ret.
#[local] Instance M_bind : MBind M := @bind.

Definition emit (e : Event) : M unit :=
  λ st, (tt, MkState (db st) (tx st) (commitFuncCalled st) (trace st ++ [e])).

Definition set_commitFuncCalled (b : bool) : M unit :=
  λ st, (tt, MkState (db st) (tx st) b (trace st)).

Definition get_commitFuncCalled : M bool :=
  λ st, (commitFuncCalled st, st).

(** A write through the transaction. *)
Definition tx_update (f : Store → Store) : M unit :=
  λ st, (tt, MkState (db st) (f (tx st)) (commitFuncCalled st) (trace st)).

Definition tx_read {A} (f : Store → A) : M A :=
  λ st, (f (tx st), st).

(** Modelled from the spec: [CommitAndBegin], the atomic "commit current
    transaction and open a new one". *)
Definition tx_CommitAndBegin : M unit :=
  λ st, (tt, MkState (tx st) (tx st) (commitFuncCalled st) (trace st)).

(** ** The commit handler and the run of a unit body *)

(** The closure passed to [v.Up] in [Apply], for the unit called [name]. *)
Definition commit_handler (name : string) (key : option bytes) (isDone : bool)
    : M (option error) :=
  emit (Handshake name key isDone) ;;
  if negb isDone then
    match key with
    | Some key =>
        tx_update (λ s, store_put s dbutils.Migrations (progress_prefix +:+ name) key)
    | None => ret tt
    end ;;
    (* do commit, but don't save partial progress *)
    tx_CommitAndBegin ;;
    ret None
  else
    set_commitFuncCalled true ;;
    stagesProgress ← tx_read MarshalMigrationPayload;
    tx_update (λ s, store_put s dbutils.Migrations name stagesProgress) ;;
    emit (Recorded name stagesProgress) ;;
    tx_update (λ s, store_delete s dbutils.Migrations (progress_prefix +:+ name)) ;;
    tx_CommitAndBegin ;;
    ret None.

(** Running a body against the transaction, with [handler] as its commit
    handler. *)
Fixpoint run (handler : option bytes → bool → M (option error)) (body : Script)
    : M (option error) :=
  match body with
  | Return err => ret err
  | GetOne bucket key k =>
      v ← tx_read (λ s, store_get s bucket key); run handler (k v)
  | Put bucket key value k =>
      tx_update (λ s, store_put s bucket key value) ;; run handler k
  | Delete bucket key k =>
      tx_update (λ s, store_delete s bucket key) ;; run handler k
  | BucketExists bucket k =>
      b ← tx_read (λ s, store_exists s bucket); run handler (k b)
  | DropBuckets bucket k =>
      tx_update (λ s, store_drop s bucket) ;; run handler k
  | ClearBuckets bucket k =>
      tx_update (λ s, store_clear s bucket) ;; run handler k
  | OnLoadCommit key isDone k =>
      err ← handler key isDone; run handler (k err)
  end.

(** ** Apply *)

(** The duplicate check: the first name met twice, if any. *)
Fixpoint uniqueNameCheck (seen : gmap string bool) (ms : list Migration)
    : option string :=
  match ms with
  | [] => None
  | v :: rest =>
      match seen !! Name v with
      | Some _ => Some (Name v)
      | None => uniqueNameCheck (<[Name v := true]> seen) rest
      end
  end.

(** One round of the main loop; [Some err] stands for [return err]. *)
Definition apply_unit (datadir : string) (applied : gmap string bytes)
    (v : Migration) : M (option error) :=
  if is_applied applied (Name v) then ret None
  else
    set_commitFuncCalled false ;;
    emit (LogInfo "Apply migration" (Name v)) ;;
    progress ← tx_read (λ s, store_get s dbutils.Migrations
                                (progress_prefix +:+ Name v));
    err ← run (commit_handler (Name v))
              (Up v (path_Join [datadir; "migrations"; Name v]) progress);
    emit (Returned (Name v) err) ;;
    match err with
    | Some err => ret (Some err)
    | None =>
        called ← get_commitFuncCalled;
        if negb called then ret (Some (Errorf_not_called (Name v)))
        else emit (LogInfo "Applied migration" (Name v)) ;; ret None
    end.

Fixpoint apply_units (datadir : string) (applied : gmap string bytes)
    (ms : list Migration) : M (option error) :=
  match ms with
  | [] => ret None
  | v :: rest =>
      err ← apply_unit datadir applied v;
      match err with
      | Some err => ret (Some err)
      | None => apply_units datadir applied rest
      end
  end.

(** [binary.BigEndian.PutUint32(b[off:], v)] *)
Definition PutUint32 (b : bytes) (off : nat) (v : Z) : bytes :=
  <[off + 3 := Z.land v 255]>
  (<[off + 2 := Z.land (Z.shiftr v 8) 255]>
  (<[off + 1 := Z.land (Z.shiftr v 16) 255]>
  (<[off := Z.land (Z.shiftr v 24) 255]> b))).


Definition schema_version (mdbx : bool) : Version :=
  if mdbx then DBSchemaVersionMDBX else DBSchemaVersionLMDB.

(** The array [version] after the three [PutUint32] calls. *)
Definition version_bytes (mdbx : bool) : bytes :=
  let version := replicate 12 0%Z in
  let version := PutUint32 version 0 (Major (schema_version mdbx)) in
  let version := PutUint32 version 4 (Minor (schema_version mdbx)) in
  PutUint32 version 8 (Patch (schema_version mdbx)).

(** What [Apply] returns and leaves behind: the error, the database as
    committed when [Apply] returns, and the events of the run. *)
Record Outcome := MkOutcome {
  result : option error;
  database : Store;
  events : list Event
}.

(** [Apply] on a store whose operations succeed.  The returns of the source
    that hand on an error of the store have no counterpart: after
    [AppliedMigrations], after [db.Begin], after [tx.GetOne] of the
    checkpoint, after the [tx.Put] of the schema version and after the
    final [tx.Commit]; nor have the returns of the commit handler after
    [MarshalMigrationPayload], [tx.Put], [tx.Delete] and
    [tx.CommitAndBegin]. *)
Definition Apply (m : Migrator) (db0 : Store) (datadir : string) (mdbx : bool)
    : Outcome :=
  if bool_decide (length (Migrations m) = 0) then MkOutcome None db0 []
  else
    let applied := AppliedMigrations db0 false in
    match uniqueNameCheck ∅ (Migrations m) with
    | Some duplicate => MkOutcome (Some (Errorf_duplicate duplicate)) db0 []
    | None =>
        (* db.Begin *)
        let st := MkState db0 db0 false [] in
        match apply_units datadir applied (Migrations m) st with
        | (Some err, st) =>
            (* the deferred tx.Rollback *)
            MkOutcome (Some err) (db st) (trace st)
        | (None, st) =>
            let '(_, st) :=
              (tx_update (λ s, store_put s dbutils.DatabaseInfoBucket
                                 dbutils.DBSchemaVersionKey (version_bytes mdbx)) ;;
               emit (LogUpdated (schema_version mdbx))) st in
            (* tx.Commit *)
            MkOutcome None (tx st) (trace st)
        end
    end.

End Engine.

(** ** A concrete environment and the units of the tests *)

(** Joining the non-empty elements with a slash, which is what [path.Join]
    does to elements that need no cleaning. *)
Fixpoint join_path (elems : list string) : string :=
  match elems with
  | [] => ""
  | e :: rest =>
      if bool_decide (e = "") then join_path rest
      else if bool_decide (join_path rest = "") then e
      else e +:+ "/" +:+ join_path rest
  end.

(** A self-delimiting stand-in for the CBOR codec: the map is numbered
    through its [Countable] instance and the number is written in binary,
    one digit per byte. *)
Fixpoint pos_digits (p : positive) : bytes :=
  match p with
  | xH => []
  | xO q => 0%Z :: pos_digits q
  | xI q => 1%Z :: pos_digits q
  end.

Fixpoint digits_pos (l : bytes) : option positive :=
  match l with
  | [] => Some xH
  | d :: rest =>
      if bool_decide (d = 0%Z) then xO <$> digits_pos rest
      else if bool_decide (d = 1%Z) then xI <$> digits_pos rest
      else None
  end.

Definition digits_Encode (s : gmap string bytes) : bytes := pos_digits (encode s).

Definition digits_Decode (data : bytes) : gmap string bytes + error :=
  match digits_pos data ≫= decode with
  | Some s => inl s
  | None => inr (MkError None "malformed payload")
  end.

(** Sample values for what the package takes from outside. *)
Definition test_externals : Externals := {|
  path_Join := join_path;
  stages_AllStages := ["Headers"; "Bodies"; "Senders"; "Execution"; "Finish"];
  cbor_Encode := digits_Encode;
  cbor_Decode := digits_Decode;
  DBSchemaVersionMDBX := MkVersion 1 1 0;
  DBSchemaVersionLMDB := MkVersion 1 0 0
|}.

(** The body [return OnLoadCommit(db, nil, true)] of the tests. *)
Definition complete_at_once : string → option bytes → Script :=
  λ tmpdir progress, OnLoadCommit None true Return.

(** The body [return nil] of TestCommitCallRequired. *)
Definition never_commits : string → option bytes → Script :=
  λ tmpdir progress, Return None.

(** TestApplyWithInit, TestValidation and TestCommitCallRequired. *)
Definition migrations_with_init : Migrator :=
  MkMigrator [MkMigration "one" complete_at_once; MkMigration "two" complete_at_once].

Definition migrations_repeated : Migrator :=
  MkMigrator [MkMigration "repeated_name" complete_at_once;
              MkMigration "repeated_name" complete_at_once].

Definition migrations_commit_required : Migrator :=
  MkMigrator [MkMigration "one" never_commits].

(** ** Vocabulary of the statements *)

Definition names (m : Migrator) : list string := Name <$> Migrations m.

(** An Applied-Migration Record keyed by [name] exists in the migrations
    bucket; a Progress Checkpoint Record of the unit [name] exists. *)
Definition has_record (s : Store) (name : string) : Prop :=
  is_Some (store_get s dbutils.Migrations name).

Definition has_checkpoint (s : Store) (name : string) : Prop :=
  is_Some (store_get s dbutils.Migrations (progress_prefix +:+ name)).

Definition has_prefix (name : string) : bool := String.prefix progress_prefix name.

(** The set of names [AppliedMigrations] reports. *)
Definition applied_set (s : Store) : gset string := dom (AppliedMigrations s false).

(** The names of the units whose body was invoked, in the order of
    invocation: every invocation of [v.Up] directly follows the line
    [log.Info("Apply migration", "name", v.Name)]. *)
Definition invoked (tr : list Event) : list string :=
  omap (λ e, match e with
             | LogInfo msg name =>
                 if bool_decide (msg = "Apply migration") then Some name else None
             | _ => None
             end) tr.

(** The names of the units the loop went past with
    [log.Info("Applied migration", "name", v.Name)]. *)
Definition finished (tr : list Event) : list string :=
  omap (λ e, match e with
             | LogInfo msg name =>
                 if bool_decide (msg = "Applied migration") then Some name else None
             | _ => None
             end) tr.

(** The invocations of the commit handler, with the unit they belong to. *)
Definition handshakes (tr : list Event) : list (string * option bytes * bool) :=
  omap (λ e, match e with
             | Handshake name key isDone => Some (name, key, isDone)
             | _ => None
             end) tr.

(** The engine wrote an Applied-Migration Record for the unit [name]. *)
Definition recorded (tr : list Event) (name : string) : Prop :=
  ∃ payload, Recorded name payload ∈ tr.

(** The unit [name] invoked the commit handler in completion mode. *)
Definition completed (tr : list Event) (name : string) : Prop :=
  ∃ key, Handshake name key true ∈ tr.

(** The body of the unit [name] returned [err]. *)
Definition returned (tr : list Event) (name : string) (err : option error) : Prop :=
  Returned name err ∈ tr.

(** A body that leaves the migrations bucket to the engine: none of its own
    store calls writes to it. *)
Fixpoint keeps_off_tracking (body : Script) : Prop :=
  match body with
  | Return _ => True
  | GetOne _ _ k => ∀ v, keeps_off_tracking (k v)
  | Put bucket _ _ k | Delete bucket _ k | DropBuckets bucket k | ClearBuckets bucket k =>
      bucket ≠ dbutils.Migrations ∧ keeps_off_tracking k
  | BucketExists _ k => ∀ b, keeps_off_tracking (k b)
  | OnLoadCommit _ _ k => ∀ err, keeps_off_tracking (k err)
  end.

Definition well_behaved (v : Migration) : Prop :=
  ∀ tmpdir progress, keeps_off_tracking (Up v tmpdir progress).


(** ** The shape of a run *)

(** The unit an event belongs to. *)
Definition event_unit (e : Event) : option string :=
  match e with
  | LogInfo _ name | Handshake name _ _ | Recorded name _ | Returned name _ =>
      Some name
  | LogUpdated _ => None
  end.

(** The events a unit body can cause: handshakes and record writes of its
    own unit. *)
Definition unit_event (name : string) (e : Event) : Prop :=
  match e with
  | Handshake n _ _ | Recorded n _ => n = name
  | _ => False
  end.

Definition is_unit_event (e : Event) : bool :=
  match e with Handshake _ _ _ | Recorded _ _ => true | _ => false end.

Definition is_completion (e : Event) : bool :=
  match e with Handshake _ _ true => true | _ => false end.

Definition is_record (e : Event) : bool :=
  match e with Recorded _ _ => true | _ => false end.

Definition unit_events (name : string) (evs : list Event) : Prop :=
  Forall (unit_event name) evs
  ∧ (existsb is_record evs = true → existsb is_completion evs = true).

(** The events of the main loop over [ms], and the error it ends with. *)
Inductive loop_trace (applied : gmap string bytes)
    : list Migration → option error → list Event → Prop :=
| loop_end :
    loop_trace applied [] None []
| loop_skip v ms r tr :
    is_applied applied (Name v) = true →
    loop_trace applied ms r tr →
    loop_trace applied (v :: ms) r tr
| loop_applied v ms r tr evs :
    is_applied applied (Name v) = false →
    unit_events (Name v) evs →
    existsb is_completion evs = true →
    loop_trace applied ms r tr →
    loop_trace applied (v :: ms) r
      (LogInfo "Apply migration" (Name v) :: evs
       ++ Returned (Name v) None :: LogInfo "Applied migration" (Name v) :: tr)
| loop_failed v ms evs err :
    is_applied applied (Name v) = false →
    unit_events (Name v) evs →
    loop_trace applied (v :: ms) (Some err)
      (LogInfo "Apply migration" (Name v) :: evs ++ [Returned (Name v) (Some err)])
| loop_not_called v ms evs :
    is_applied applied (Name v) = false →
    unit_events (Name v) evs →
    existsb is_completion evs = false →
    loop_trace applied (v :: ms) (Some (Errorf_not_called (Name v)))
      (LogInfo "Apply migration" (Name v) :: evs ++ [Returned (Name v) None]).

(** The moves of the state while the body of the unit [name] runs: a write of
    the body through the transaction, allowed by [W], or an invocation of
    the commit handler. *)
Inductive unit_step {env : Externals} (W : Store → Store → Prop) (name : string)
    : State → State → Prop :=
| step_write st s' :
    W (tx st) s' →
    unit_step W name st (MkState (db st) s' (commitFuncCalled st) (trace st))
| step_handshake st key isDone :
    unit_step W name st (commit_handler name key isDone st).2.

(** The moves of the state during the main loop: a move of some unit, or the
    loop's own bookkeeping, which touches neither store. *)
Inductive engine_step {env : Externals} (W : Store → Store → Prop)
    : State → State → Prop :=
| step_unit name st st' :
    unit_step W name st st' → engine_step W st st'
| step_bookkeeping st called evs :
    Forall (λ e, is_unit_event e = false) evs →
    engine_step W st (MkState (db st) (tx st) called (trace st ++ evs)).

Definition any_write (s s' : Store) : Prop := True.

(** A write that leaves the migrations bucket as it is. *)
Definition same_tracking (s s' : Store) : Prop :=
  s' !! dbutils.Migrations = s !! dbutils.Migrations.

(** The last invocation of the commit handler in a run. *)
Definition last_handshake (tr : list Event) : option (string * option bytes * bool) :=
  last (handshakes tr).

(** When the last handshake so far was a completion, the record it wrote is
    in the committed database. *)
Definition completion_is_durable (st : State) : Prop :=
  ∀ name key, last_handshake (trace st) = Some (name, key, true) →
              has_record (db st) name.

(** Unless the unit [name] made a completion handshake, neither the
    committed database nor the transaction holds a record keyed [name]. *)
Definition record_needs_completion (name : string) (st : State) : Prop :=
  completed (trace st) name
  ∨ (¬ has_record (db st) name ∧ ¬ has_record (tx st) name).

(** ** Vocabulary of the further properties *)

(** The Progress Checkpoint Record of the unit [name]. *)
Definition checkpoint_of (s : Store) (name : string) : option bytes :=
  store_get s dbutils.Migrations (progress_prefix +:+ name).

(** The invocations of the commit handler made by the unit [name]. *)
Definition own_handshakes (name : string) (tr : list Event)
    : list (option bytes * bool) :=
  omap (λ e, match e with
             | Handshake n key isDone =>
                 if bool_decide (n = name) then Some (key, isDone) else None
             | _ => None
             end) tr.

(** Until the first invocation of the commit handler nothing is committed. *)
Definition nothing_committed_yet (s : Store) (st : State) : Prop :=
  handshakes (trace st) = [] → db st = s.

(** Once the unit [name] has made a completion handshake its record is both
    committed and seen by the transaction. *)
Definition completion_keeps_record (name : string) (st : State) : Prop :=
  completed (trace st) name → has_record (db st) name ∧ has_record (tx st) name.

(** Unless the unit [name] makes a completion handshake, the record keyed
    [name] keeps the payload [payload]. *)
Definition record_keeps_payload (name : string) (payload : bytes) (st : State)
    : Prop :=
  completed (trace st) name
  ∨ (store_get (db st) dbutils.Migrations name = Some payload
     ∧ store_get (tx st) dbutils.Migrations name = Some payload).

(** Unless a unit called "_progress_" followed by [name] completes, the
    checkpoint of [name] is what the last handshake of [name] made it:
    absent after a completion, the key after a checkpoint with a key. *)
Definition checkpoint_follows_handshake (name : string) (st : State) : Prop :=
  completed (trace st) (progress_prefix +:+ name)
  ∨ ∀ key isDone,
      last (own_handshakes name (trace st)) = Some (key, isDone) →
      (isDone = true →
         checkpoint_of (db st) name = None ∧ checkpoint_of (tx st) name = None)
      ∧ (∀ k, isDone = false → key = Some k →
           checkpoint_of (db st) name = Some k ∧ checkpoint_of (tx st) name = Some k).

(** The unit [v] with its body fixed to one progress argument. *)
Definition with_progress (v : Migration) (progress : option bytes) : Migration :=
  MkMigration (Name v) (λ tmpdir _, Up v tmpdir progress).

(** Unless the unit [name] makes a completion handshake, or a unit whose
    checkpoint key is [name] invokes the commit handler, the entry of the
    migrations bucket under [name] stays [entry], in the committed database
    and in the transaction. *)
Definition entry_kept (name : string) (entry : option bytes) (st : State) : Prop :=
  completed (trace st) name
  ∨ (∃ u key isDone,
       Handshake u key isDone ∈ trace st ∧ progress_prefix +:+ u = name)
  ∨ (store_get (db st) dbutils.Migrations name = entry
     ∧ store_get (tx st) dbutils.Migrations name = entry).

(** * Properties *)

(** ** Strings and the store *)

Lemma prefix_app (p s : string) : String.prefix p (p +:+ s) = true.
Proof.
  induction p as [|a p IH]; simpl.
  - by destruct s.
  - destruct (Ascii.ascii_dec a a); [exact IH | done].
Qed.

Lemma checkpoint_key_has_prefix (name : string) :
  has_prefix (progress_prefix +:+ name) = true.
Proof. apply prefix_app. Qed.

Lemma checkpoint_key_ne (name other : string) :
  has_prefix other = false → progress_prefix +:+ name ≠ other.
Proof.
  intros Hp <-. rewrite checkpoint_key_has_prefix in Hp. discriminate.
Qed.

Lemma store_get_put (s : Store) (b k b' k' : string) (v : bytes) :
  store_get (store_put s b k v) b' k' =
    if bool_decide (b = b' ∧ k = k') then Some v else store_get s b' k'.
Proof.
  unfold store_get, store_put. destruct (decide (b = b')) as [<-|Hb].
  - rewrite lookup_insert_eq. simpl. destruct (decide (k = k')) as [<-|Hk].
    + rewrite lookup_insert_eq. by rewrite bool_decide_eq_true_2.
    + rewrite lookup_insert_ne by done.
      rewrite bool_decide_eq_false_2 by (intros [? ?]; congruence).
      by destruct (s !! b).
  - rewrite lookup_insert_ne by done.
    by rewrite bool_decide_eq_false_2 by (intros [? ?]; congruence).
Qed.

Lemma store_get_delete (s : Store) (b k b' k' : string) :
  store_get (store_delete s b k) b' k' =
    if bool_decide (b = b' ∧ k = k') then None else store_get s b' k'.
Proof.
  unfold store_get, store_delete. destruct (decide (b = b')) as [<-|Hb].
  - rewrite lookup_alter_eq. destruct (s !! b) as [bk|] eqn:E; simpl.
    + destruct (decide (k = k')) as [<-|Hk].
      * rewrite lookup_delete_eq. by rewrite bool_decide_eq_true_2.
      * rewrite lookup_delete_ne by done.
        by rewrite bool_decide_eq_false_2 by (intros [? ?]; congruence).
    + by case_bool_decide.
  - rewrite lookup_alter_ne by done.
    by rewrite bool_decide_eq_false_2 by (intros [? ?]; congruence).
Qed.

(** ** AppliedMigrations *)

Lemma AppliedMigrations_lookup (s : Store) (withPayload : bool) (name : string) :
  AppliedMigrations s withPayload !! name =
    if has_prefix name then None
    else (λ v, if withPayload then v else []) <$> store_get s dbutils.Migrations name.
Proof.
  unfold AppliedMigrations, store_walk, store_get.
  assert (s !! dbutils.Migrations ≫= (.!! name)
          = default ∅ (s !! dbutils.Migrations) !! name) as ->.
  { destruct (s !! dbutils.Migrations); simpl; [done | by rewrite lookup_empty]. }
  generalize (default ∅ (s !! dbutils.Migrations)). intros bucket.
  apply (map_fold_weak_ind (λ r (m : gmap string (list Z)),
    r !! name = if has_prefix name then None
                else (λ v, if withPayload then v else []) <$> m !! name)).
  - rewrite !lookup_empty. by destruct (has_prefix name).
  - intros k v m r Hk IH. destruct (decide (k = name)) as [->|Hne].
    + rewrite lookup_insert_eq. fold (has_prefix name).
      destruct (has_prefix name) eqn:Hp.
      * by rewrite IH.
      * destruct withPayload; by rewrite lookup_insert_eq.
    + rewrite lookup_insert_ne by done. rewrite <- IH.
      destruct (String.prefix progress_prefix k); [done|].
      destruct withPayload; by rewrite lookup_insert_ne.
Qed.

Lemma is_applied_spec (s : Store) (name : string) :
  is_applied (AppliedMigrations s false) name = true
  ↔ has_record s name ∧ has_prefix name = false.
Proof.
  unfold is_applied, has_record. rewrite AppliedMigrations_lookup.
  destruct (has_prefix name); [split; [done | by intros [_ ?]] |].
  destruct (store_get s dbutils.Migrations name); simpl.
  - naive_solver.
  - split; [done|]. by intros [[? ?] _].
Qed.

Lemma elem_of_applied_set (s : Store) (name : string) :
  name ∈ applied_set s ↔ has_record s name ∧ has_prefix name = false.
Proof.
  unfold applied_set. rewrite elem_of_dom, <- is_applied_spec.
  unfold is_applied. destruct (AppliedMigrations s false !! name).
  - split; [done | eauto].
  - split; [by intros [? ?] | done].
Qed.

(** ** PendingMigrations *)

Lemma pending_loop (applied : gmap string bytes) (ms pending : list Migration) :
  foldl (λ pending v, if is_applied applied (Name v) then pending else pending ++ [v])
        pending ms
  = pending ++ filter (λ v, is_applied applied (Name v) = false) ms.
Proof.
  revert pending. induction ms as [|v ms IH]; intros pending; simpl.
  - by rewrite app_nil_r.
  - rewrite IH. destruct (is_applied applied (Name v)) eqn:E.
    + by rewrite filter_cons_False by congruence.
    + rewrite filter_cons_True by done. by rewrite <- app_assoc.
Qed.

Lemma PendingMigrations_filter (m : Migrator) (s : Store) :
  PendingMigrations m s
  = filter (λ v, is_applied (AppliedMigrations s false) (Name v) = false) (Migrations m).
Proof. unfold PendingMigrations, make_pending. by rewrite pending_loop. Qed.

(** C9: [PendingMigrations] is the subsequence, in registration order, of the
    registered units whose names are not in the applied set, and
    [HasPendingMigrations] is true exactly when that subsequence is not
    empty. *)
Theorem PendingMigrations_spec (m : Migrator) (s : Store) :
  PendingMigrations m s = filter (λ v, Name v ∉ applied_set s) (Migrations m)
  ∧ sublist (PendingMigrations m s) (Migrations m)
  ∧ (HasPendingMigrations m s = true
     ↔ filter (λ v, Name v ∉ applied_set s) (Migrations m) ≠ []).
Proof.
  assert (PendingMigrations m s
          = filter (λ v, Name v ∉ applied_set s) (Migrations m)) as Heq.
  { rewrite PendingMigrations_filter. apply list_filter_iff. intros v.
    rewrite elem_of_applied_set, <- is_applied_spec.
    destruct (is_applied _ _); naive_solver. }
  split; [exact Heq|]. split.
  - rewrite Heq. apply sublist_filter.
  - unfold HasPendingMigrations. rewrite bool_decide_eq_true, Heq.
    destruct (filter _ _); simpl; [split; [lia | done] | split; [done | lia]].
Qed.

(** C6, as amended: a name is reported by [AppliedMigrations] exactly when
    the migrations bucket holds a record keyed by it and the name does not
    begin with the checkpoint prefix; a registered unit without a record is
    pending, whether or not a Progress Checkpoint Record is left over. *)
Theorem applied_iff_record_without_prefix (s : Store) (withPayload : bool)
    (name : string) :
  (name ∈ dom (AppliedMigrations s withPayload)
   ↔ has_record s name ∧ has_prefix name = false)
  ∧ (∀ m v, v ∈ Migrations m → Name v = name → ¬ has_record s name →
            v ∈ PendingMigrations m s).
Proof.
  split.
  - rewrite elem_of_dom, AppliedMigrations_lookup. unfold has_record.
    destruct (has_prefix name).
    + split; [by intros [? ?] | by intros [_ ?]].
    + rewrite fmap_is_Some. split; [done | by intros [? _]].
  - intros m v Hv <- Hrec. rewrite PendingMigrations_filter.
    apply list_elem_of_filter. split; [|done].
    destruct (is_applied _ _) eqn:E; [|done].
    apply is_applied_spec in E as [? _]. done.
Qed.

Lemma applied_iff_record_without_prefix_witness :
  let s := store_put ∅ dbutils.Migrations "_progress_one" [7%Z] in
  let one := MkMigration "one" complete_at_once in
  has_checkpoint s "one" ∧ one ∈ PendingMigrations (MkMigrator [one]) s.
Proof.
  split.
  - by eexists.
  - apply (proj2 (applied_iff_record_without_prefix _ false "one")); simpl.
    + apply list_elem_of_singleton. reflexivity.
    + reflexivity.
    + intros [v Hv]. vm_compute in Hv. discriminate.
Defined.

(** C6, as stated, fails: a record keyed by a name that begins with
    "_progress_" exists in the bucket, and [AppliedMigrations] does not
    report the name. *)
Lemma applied_misses_prefixed_record :
  let s := store_put ∅ dbutils.Migrations "_progress_x" [1%Z] in
  ¬ ("_progress_x" ∈ dom (AppliedMigrations s false) ↔ has_record s "_progress_x").
Proof.
  intros s [_ Hback].
  assert (has_record s "_progress_x") as Hrec by by eexists.
  apply Hback, elem_of_dom in Hrec as [v Hv]. vm_compute in Hv. discriminate.
Qed.

(** ** The duplicate check *)

Lemma uniqueNameCheck_names (seen : gmap string bool) (ms ms' : list Migration) :
  Name <$> ms = Name <$> ms' → uniqueNameCheck seen ms = uniqueNameCheck seen ms'.
Proof.
  revert seen ms'. induction ms as [|v ms IH]; intros seen [|v' ms'] Heq;
    simpl in *; try done.
  injection Heq as Hv Hms. rewrite Hv.
  destruct (seen !! Name v'); [done|]. by apply IH.
Qed.

Lemma uniqueNameCheck_None (seen : gmap string bool) (ms : list Migration) :
  uniqueNameCheck seen ms = None
  ↔ NoDup (Name <$> ms) ∧ ∀ x, x ∈ Name <$> ms → seen !! x = None.
Proof.
  revert seen. induction ms as [|v ms IH]; intros seen; simpl.
  - split; [intros _; split; [constructor | by intros x ?%elem_of_nil] | done].
  - destruct (seen !! Name v) eqn:Hseen.
    + split; [done|]. intros [_ Hfresh].
      rewrite Hfresh in Hseen by apply list_elem_of_here. done.
    + rewrite IH, NoDup_cons. split.
      * intros [Hnd Hfresh]. split; [split; [|done]|].
        -- intros Hin. apply Hfresh in Hin. by rewrite lookup_insert_eq in Hin.
        -- intros x [->|Hin]%elem_of_cons; [done|].
           specialize (Hfresh x Hin).
           destruct (decide (Name v = x)) as [Heq|Hne].
           ++ rewrite Heq, lookup_insert_eq in Hfresh. done.
           ++ rewrite lookup_insert_ne in Hfresh by done. done.
      * intros [[Hnotin Hnd] Hfresh]. split; [done|]. intros x Hin.
        rewrite lookup_insert_ne by (intros Heq; apply Hnotin; rewrite Heq; exact Hin).
        apply Hfresh. by apply list_elem_of_further.
Qed.

Lemma uniqueNameCheck_Some (seen : gmap string bool) (ms : list Migration)
    (dup : string) :
  uniqueNameCheck seen ms = Some dup →
  ∃ j, (Name <$> ms) !! j = Some dup
       ∧ (is_Some (seen !! dup) ∨ dup ∈ take j (Name <$> ms)).
Proof.
  revert seen. induction ms as [|v ms IH]; intros seen; simpl; [done|].
  destruct (seen !! Name v) eqn:Hseen.
  - intros [= <-]. exists 0. split; [done|]. left. by rewrite Hseen.
  - intros (j & Hj & Hdup)%IH. exists (S j). split; [done|].
    destruct (decide (Name v = dup)) as [->|Hne].
    + right. simpl. apply list_elem_of_here.
    + rewrite lookup_insert_ne in Hdup by done.
      destruct Hdup as [?|?]; [by left | right]. simpl.
      by apply list_elem_of_further.
Qed.

Lemma Apply_duplicate {env : Externals} (m : Migrator) (s : Store)
    (datadir : string) (mdbx : bool) (dup : string) :
  uniqueNameCheck ∅ (Migrations m) = Some dup →
  Apply m s datadir mdbx = MkOutcome (Some (Errorf_duplicate dup)) s [].
Proof.
  intros Hcheck. unfold Apply. rewrite Hcheck.
  rewrite bool_decide_eq_false_2; [done|].
  intros Hlen. apply length_zero_iff_nil in Hlen. by rewrite Hlen in Hcheck.
Qed.

(** C4: when two registered units share a name, [Apply] returns an error
    that wraps [ErrMigrationNonUniqueName] and names a repeated name; the
    database is left as it was and the run has no event at all (no body is
    invoked, no record is written), whatever the bodies are. *)
Theorem duplicate_names_rejected {env : Externals} (m : Migrator) (s : Store)
    (datadir : string) (mdbx : bool) :
  ¬ NoDup (names m) →
  ∃ dup i j,
    i < j ∧ names m !! i = Some dup ∧ names m !! j = Some dup
    ∧ Apply m s datadir mdbx = MkOutcome (Some (Errorf_duplicate dup)) s []
    ∧ errors_Is (Errorf_duplicate dup) ErrMigrationNonUniqueName = true
    ∧ ∀ m', names m' = names m → Apply m' s datadir mdbx = Apply m s datadir mdbx.
Proof.
  intros Hdup. unfold names in *.
  destruct (uniqueNameCheck ∅ (Migrations m)) as [dup|] eqn:Hcheck.
  2: { apply uniqueNameCheck_None in Hcheck as [? _]. done. }
  assert (∀ m', Name <$> Migrations m' = Name <$> Migrations m →
            Apply m' s datadir mdbx = MkOutcome (Some (Errorf_duplicate dup)) s [])
    as Hout.
  { intros m' Heq. apply Apply_duplicate.
    by rewrite (uniqueNameCheck_names _ _ _ Heq). }
  apply uniqueNameCheck_Some in Hcheck as (j & Hj & [[? Hseen]|Hin]).
  { by rewrite lookup_empty in Hseen. }
  apply list_elem_of_lookup in Hin as [i Hi].
  apply lookup_take_Some in Hi as [Hi Hlt].
  exists dup, i, j. repeat split; try done.
  - by apply Hout.
  - intros m' Heq. by rewrite !Hout.
Qed.

Lemma duplicate_names_rejected_witness :
  result (Apply (env := test_externals) migrations_repeated ∅ "" false)
  = Some (Errorf_duplicate "repeated_name").
Proof.
  destruct (duplicate_names_rejected (env := test_externals)
              migrations_repeated ∅ "" false)
    as (dup & i & j & _ & _ & _ & Hout & _).
  - intros Hnd. apply NoDup_cons in Hnd as [Hnotin _].
    apply Hnotin, list_elem_of_here.
  - reflexivity.
Defined.

(** ** The payload codec *)

Lemma marshal_stage_absent {env : Externals} (db : Store) (s : gmap string bytes)
    (stage : string) :
  len (store_get db dbutils.SyncStageProgress stage) = 0 →
  len (store_get db dbutils.SyncStageUnwind stage) = 0 →
  marshal_stage db s stage = s.
Proof.
  intros Hp Hu. unfold marshal_stage. rewrite Hp, Hu.
  by rewrite bool_decide_eq_false_2 by lia.
Qed.

Lemma marshal_stage_progress {env : Externals} (db : Store) (s : gmap string bytes)
    (stage : string) (v : bytes) :
  store_get db dbutils.SyncStageProgress stage = Some v → v ≠ [] →
  len (store_get db dbutils.SyncStageUnwind stage) = 0 →
  marshal_stage db s stage = <[stage := v]> s.
Proof.
  intros Hp Hv Hu. unfold marshal_stage. rewrite Hp, Hu. simpl.
  by rewrite bool_decide_eq_true_2 by (destruct v; simpl; [done | lia]).
Qed.

Lemma marshal_loop_single {env : Externals} (db : Store) (stage : string) (v : bytes)
    (stages : list string) (s : gmap string bytes) :
  store_get db dbutils.SyncStageProgress stage = Some v → v ≠ [] →
  (∀ other, other ∈ stages → other ≠ stage →
     len (store_get db dbutils.SyncStageProgress other) = 0) →
  (∀ other, other ∈ stages →
     len (store_get db dbutils.SyncStageUnwind other) = 0) →
  foldl (marshal_stage db) s stages
  = if bool_decide (stage ∈ stages) then <[stage := v]> s else s.
Proof.
  intros Hp Hv. revert s.
  induction stages as [|x stages IH]; intros s Hothers Hunwind; cbn [foldl].
  - by rewrite bool_decide_eq_false_2 by apply not_elem_of_nil.
  - assert (∀ s', foldl (marshal_stage db) s' stages
        = if bool_decide (stage ∈ stages) then <[stage := v]> s' else s') as IH'.
    { intros s'. apply IH; intros other Hin; [intros Hne|].
      - apply Hothers; [by apply list_elem_of_further | done].
      - apply Hunwind. by apply list_elem_of_further. }
    rewrite IH'. destruct (decide (x = stage)) as [->|Hne].
    + rewrite (marshal_stage_progress db s stage v);
        [|done..|apply Hunwind, list_elem_of_here].
      rewrite (bool_decide_eq_true_2 (stage ∈ stage :: stages))
        by apply list_elem_of_here.
      case_bool_decide; [by rewrite insert_insert_eq | done].
    + rewrite marshal_stage_absent.
      * rewrite (bool_decide_ext (stage ∈ x :: stages) (stage ∈ stages)); [done|].
        rewrite elem_of_cons. split; [by intros [?|?] | by right].
      * apply Hothers; [apply list_elem_of_here | done].
      * apply Hunwind, list_elem_of_here.
Qed.

(** C8: over a codec that decodes what it encoded, when exactly one known
    stage has a non-empty forward-progress value and no known stage has an
    unwind value, unmarshalling the marshalled payload gives the mapping with
    the single entry of that stage and its stored bytes. *)
Theorem marshal_roundtrip_single_stage {env : Externals} (db : Store) (stage : string)
    (v : bytes) :
  (∀ s, cbor_Decode (cbor_Encode s) = inl s) →
  stage ∈ stages_AllStages →
  store_get db dbutils.SyncStageProgress stage = Some v → v ≠ [] →
  (∀ other, other ∈ stages_AllStages → other ≠ stage →
     len (store_get db dbutils.SyncStageProgress other) = 0) →
  (∀ other, other ∈ stages_AllStages →
     len (store_get db dbutils.SyncStageUnwind other) = 0) →
  UnmarshalMigrationPayload (MarshalMigrationPayload db) = inl {[stage := v]}.
Proof.
  intros Hcodec Hin Hp Hv Hothers Hunwind.
  unfold UnmarshalMigrationPayload, MarshalMigrationPayload.
  rewrite Hcodec, (marshal_loop_single db stage v) by done.
  by rewrite bool_decide_eq_true_2.
Qed.

Lemma digits_pos_digits (p : positive) : digits_pos (pos_digits p) = Some p.
Proof. induction p as [p IH|p IH|]; simpl; [by rewrite IH..|done]. Qed.

Lemma digits_codec_roundtrip (s : gmap string bytes) :
  digits_Decode (digits_Encode s) = inl s.
Proof.
  unfold digits_Decode, digits_Encode. rewrite digits_pos_digits. simpl.
  by rewrite decode_encode.
Qed.

Lemma marshal_roundtrip_single_stage_witness :
  let db := store_put ∅ dbutils.SyncStageProgress "Execution"
              [0; 0; 0; 0; 0; 0; 0; 42]%Z in
  UnmarshalMigrationPayload (env := test_externals)
    (MarshalMigrationPayload (env := test_externals) db)
  = inl {["Execution" := [0; 0; 0; 0; 0; 0; 0; 42]%Z]}.
Proof.
  apply (marshal_roundtrip_single_stage (env := test_externals)).
  - exact digits_codec_roundtrip.
  - simpl. set_solver.
  - reflexivity.
  - discriminate.
  - intros other Hin Hne. rewrite store_get_put.
    rewrite bool_decide_eq_false_2 by (intros [_ ?]; congruence). reflexivity.
  - intros other Hin. rewrite store_get_put.
    rewrite bool_decide_eq_false_2 by (intros [? _]; discriminate). reflexivity.
Defined.

(** ** The commit handler and the run of a body *)

Ltac run_monad :=
  unfold mbind, M_bind, bind, ret, emit, set_commitFuncCalled,
    get_commitFuncCalled, tx_update, tx_read, tx_CommitAndBegin; simpl.

Lemma commit_handler_checkpoint {env : Externals} (name : string)
    (key : option bytes) (st : State) :
  commit_handler name key false st =
    let s := match key with
             | Some key => store_put (tx st) dbutils.Migrations
                             (progress_prefix +:+ name) key
             | None => tx st
             end in
    (None, MkState s s (commitFuncCalled st)
                   (trace st ++ [Handshake name key false])).
Proof. unfold commit_handler. destruct key; by run_monad. Qed.

Lemma commit_handler_completion {env : Externals} (name : string)
    (key : option bytes) (st : State) :
  commit_handler name key true st =
    let payload := MarshalMigrationPayload (tx st) in
    let s := store_delete (store_put (tx st) dbutils.Migrations name payload)
               dbutils.Migrations (progress_prefix +:+ name) in
    (None, MkState s s true
                   (trace st ++ [Handshake name key true; Recorded name payload])).
Proof. unfold commit_handler. run_monad. by rewrite <- app_assoc. Qed.

Lemma run_events {env : Externals} (name : string) (body : Script) (st : State) :
  ∃ evs,
    trace (run (commit_handler name) body st).2 = trace st ++ evs
    ∧ unit_events name evs
    ∧ commitFuncCalled (run (commit_handler name) body st).2
      = commitFuncCalled st || existsb is_completion evs.
Proof.
  revert st.
  induction body as [err|b k cont IH|b k v cont IH|b k cont IH|b cont IH
                     |b cont IH|b cont IH|key isDone cont IH]; intros st.
  - exists []. simpl. rewrite app_nil_r, orb_false_r.
    repeat split; [constructor | done].
  - apply (IH _ st).
  - apply (IH (MkState _ _ _ _)).
  - apply (IH (MkState _ _ _ _)).
  - apply (IH _ st).
  - apply (IH (MkState _ _ _ _)).
  - apply (IH (MkState _ _ _ _)).
  - cbn [run]. unfold mbind, M_bind, bind.
    destruct isDone.
    + rewrite commit_handler_completion. cbn zeta.
      edestruct IH as (evs & Htr & [Hall Hrec] & Hflag).
      exists (Handshake name key true
              :: Recorded name (MarshalMigrationPayload (tx st)) :: evs).
      rewrite Htr, Hflag. simpl. rewrite <- app_assoc.
      split; [done|]. split; [|by destruct (commitFuncCalled st)].
      split; [by repeat constructor | done].
    + rewrite commit_handler_checkpoint. cbn zeta.
      edestruct IH as (evs & Htr & [Hall Hrec] & Hflag).
      exists (Handshake name key false :: evs).
      rewrite Htr, Hflag. simpl. rewrite <- app_assoc.
      split; [done|]. split; [|by destruct (commitFuncCalled st)].
      split; [by repeat constructor | done].
Qed.

(** ** The shape of the main loop *)

Lemma apply_unit_applied {env : Externals} (datadir : string)
    (applied : gmap string bytes) (v : Migration) (st : State) :
  is_applied applied (Name v) = true →
  apply_unit datadir applied v st = (None, st).
Proof. intros Happ. unfold apply_unit. by rewrite Happ. Qed.

Lemma apply_unit_pending {env : Externals} (datadir : string)
    (applied : gmap string bytes) (v : Migration) (st : State) :
  is_applied applied (Name v) = false →
  apply_unit datadir applied v st =
    let started := MkState (db st) (tx st) false
                     (trace st ++ [LogInfo "Apply migration" (Name v)]) in
    let progress := store_get (tx st) dbutils.Migrations
                      (progress_prefix +:+ Name v) in
    let '(err, st2) :=
      run (commit_handler (Name v))
          (Up v (path_Join [datadir; "migrations"; Name v]) progress) started in
    let returned := MkState (db st2) (tx st2) (commitFuncCalled st2)
                      (trace st2 ++ [Returned (Name v) err]) in
    match err with
    | Some err => (Some err, returned)
    | None =>
        if commitFuncCalled st2
        then (None, MkState (db st2) (tx st2) (commitFuncCalled st2)
                      ((trace st2 ++ [Returned (Name v) None])
                       ++ [LogInfo "Applied migration" (Name v)]))
        else (Some (Errorf_not_called (Name v)), returned)
    end.
Proof.
  intros Happ. unfold apply_unit. rewrite Happ. run_monad.
  destruct (run _ _ _) as [[err|] st2]; simpl; [done|].
  by destruct (commitFuncCalled st2).
Qed.

Lemma apply_units_trace {env : Externals} (datadir : string)
    (applied : gmap string bytes) (ms : list Migration) (st : State) :
  ∃ tr,
    trace (apply_units datadir applied ms st).2 = trace st ++ tr
    ∧ loop_trace applied ms (apply_units datadir applied ms st).1 tr.
Proof.
  revert st. induction ms as [|v ms IH]; intros st.
  - exists []. simpl. rewrite app_nil_r. split; [done | constructor].
  - cbn [apply_units]. unfold mbind, M_bind, bind.
    destruct (is_applied applied (Name v)) eqn:Happ.
    + rewrite apply_unit_applied by done.
      destruct (IH st) as (tr & Htr & Hloop).
      exists tr. split; [done|]. by apply loop_skip.
    + rewrite apply_unit_pending by done. cbn zeta.
      match goal with |- context [run ?h ?b ?s] =>
        destruct (run_events (Name v) b s) as (evs & Htr & Hevs & Hflag);
        destruct (run h b s) as [err st2] end.
      simpl in Htr, Hflag. destruct err as [err|].
      * exists (LogInfo "Apply migration" (Name v) :: evs
                ++ [Returned (Name v) (Some err)]).
        simpl. rewrite Htr, <- !app_assoc. split; [done|].
        by apply loop_failed.
      * destruct (commitFuncCalled st2) eqn:Hcalled.
        -- match goal with |- context [apply_units _ _ _ ?s] =>
             destruct (IH s) as (tr & Htr' & Hloop) end.
           exists (LogInfo "Apply migration" (Name v) :: evs
                   ++ Returned (Name v) None
                   :: LogInfo "Applied migration" (Name v) :: tr).
           split; [rewrite Htr'; simpl; by rewrite Htr, <- !app_assoc|].
           by apply loop_applied.
        -- exists (LogInfo "Apply migration" (Name v) :: evs
                   ++ [Returned (Name v) None]).
           simpl. rewrite Htr, <- !app_assoc. split; [done|].
           by apply loop_not_called.
Qed.

Lemma Apply_empty {env : Externals} (m : Migrator) (s : Store)
    (datadir : string) (mdbx : bool) :
  Migrations m = [] → Apply m s datadir mdbx = MkOutcome None s [].
Proof. intros Hnil. unfold Apply. by rewrite Hnil. Qed.

Lemma Apply_unique {env : Externals} (m : Migrator) (s : Store)
    (datadir : string) (mdbx : bool) :
  Migrations m ≠ [] → NoDup (names m) →
  Apply m s datadir mdbx =
    match apply_units datadir (AppliedMigrations s false) (Migrations m)
            (MkState s s false []) with
    | (Some err, st) => MkOutcome (Some err) (db st) (trace st)
    | (None, st) =>
        MkOutcome None
          (store_put (tx st) dbutils.DatabaseInfoBucket
             dbutils.DBSchemaVersionKey (version_bytes mdbx))
          (trace st ++ [LogUpdated (schema_version mdbx)])
    end.
Proof.
  intros Hne Hnd. unfold Apply.
  rewrite bool_decide_eq_false_2
    by (intros Hlen; by apply length_zero_iff_nil in Hlen).
  assert (uniqueNameCheck ∅ (Migrations m) = None) as ->.
  { apply uniqueNameCheck_None. split; [done|]. intros x _. apply lookup_empty. }
  by destruct (apply_units _ _ _ _) as [[err|] st].
Qed.

(** The three ways [Apply] can go. *)
Lemma Apply_cases {env : Externals} (m : Migrator) (s : Store)
    (datadir : string) (mdbx : bool) :
  let o := Apply m s datadir mdbx in
  (Migrations m = [] ∧ o = MkOutcome None s [])
  ∨ (∃ dup, ¬ NoDup (names m) ∧ o = MkOutcome (Some (Errorf_duplicate dup)) s [])
  ∨ (Migrations m ≠ [] ∧ NoDup (names m) ∧ ∃ st tr,
       apply_units datadir (AppliedMigrations s false) (Migrations m)
         (MkState s s false []) = (result o, st)
       ∧ trace st = tr
       ∧ loop_trace (AppliedMigrations s false) (Migrations m) (result o) tr
       ∧ match result o with
         | Some _ => database o = db st ∧ events o = tr
         | None =>
             database o = store_put (tx st) dbutils.DatabaseInfoBucket
                            dbutils.DBSchemaVersionKey (version_bytes mdbx)
             ∧ events o = tr ++ [LogUpdated (schema_version mdbx)]
         end).
Proof.
  intros o. subst o.
  destruct (decide (Migrations m = [])) as [Hnil|Hne].
  { left. split; [done|]. by apply Apply_empty. }
  destruct (decide (NoDup (names m))) as [Hnd|Hdup].
  - right. right. split; [done|]. split; [done|].
    rewrite Apply_unique by done.
    destruct (apply_units_trace datadir (AppliedMigrations s false)
                (Migrations m) (MkState s s false [])) as (tr & Htr & Hloop).
    destruct (apply_units _ _ _ _) as [r st] eqn:Hrun. simpl in Htr, Hloop.
    exists st, tr. destruct r as [err|]; simpl; by rewrite ?Htr.
  - right. left.
    destruct (uniqueNameCheck ∅ (Migrations m)) as [dup|] eqn:Hcheck.
    + exists dup. split; [done|]. by apply Apply_duplicate.
    + apply uniqueNameCheck_None in Hcheck as [? _]. done.
Qed.

(** ** Reading the events of a run *)

Lemma unit_event_inv (name : string) (evs : list Event) (e : Event) :
  Forall (unit_event name) evs → e ∈ evs →
  (∃ key isDone, e = Handshake name key isDone) ∨ (∃ payload, e = Recorded name payload).
Proof.
  intros Hall Hin. rewrite Forall_forall in Hall. specialize (Hall e Hin).
  destruct e; simpl in Hall; try done; subst; eauto.
Qed.

Lemma existsb_completion (evs : list Event) :
  existsb is_completion evs = true ↔ ∃ name key, Handshake name key true ∈ evs.
Proof.
  rewrite existsb_exists. split.
  - intros (e & Hin%list_elem_of_In & He).
    destruct e as [| |name key []| |]; try done. eauto.
  - intros (name & key & Hin). exists (Handshake name key true).
    by rewrite <- list_elem_of_In.
Qed.

Lemma existsb_record (evs : list Event) :
  existsb is_record evs = true ↔ ∃ name payload, Recorded name payload ∈ evs.
Proof.
  rewrite existsb_exists. split.
  - intros (e & Hin%list_elem_of_In & He). destruct e; try done. eauto.
  - intros (name & payload & Hin). exists (Recorded name payload).
    by rewrite <- list_elem_of_In.
Qed.

Lemma unit_events_completion (name : string) (evs : list Event) :
  unit_events name evs → existsb is_completion evs = true →
  ∃ key, Handshake name key true ∈ evs.
Proof.
  intros [Hall _] (n & key & Hin)%existsb_completion.
  destruct (unit_event_inv _ _ _ Hall Hin) as [(k & d & [= -> _ _])|(p & ?)];
    [eauto | done].
Qed.

Lemma unit_events_no_completion (other : string) (key : option bytes)
    (evs : list Event) :
  existsb is_completion evs = false → Handshake other key true ∉ evs.
Proof.
  intros Hno Hin.
  assert (existsb is_completion evs = true) as Hyes
    by (apply existsb_completion; eauto).
  congruence.
Qed.

Lemma invoked_unit_events (name : string) (evs : list Event) :
  Forall (unit_event name) evs → invoked evs = [] ∧ finished evs = [].
Proof.
  induction 1 as [|e evs He _ [IH1 IH2]]; [done|].
  unfold invoked, finished in *. destruct e; simpl in *; done.
Qed.

(** Every event of the loop belongs to a registered unit that was not yet
    applied when [Apply] started. *)
Lemma loop_trace_event (applied : gmap string bytes) (ms : list Migration)
    (r : option error) (tr : list Event) (e : Event) :
  loop_trace applied ms r tr → e ∈ tr →
  ∃ v, v ∈ ms ∧ is_applied applied (Name v) = false ∧ event_unit e = Some (Name v).
Proof.
  intros Hloop. revert e.
  induction Hloop as [|v ms r tr Happ _ IH|v ms r tr evs Happ [Hall _] _ _ IH
                      |v ms evs err Happ [Hall _]|v ms evs Happ [Hall _] _];
    intros e Hin.
  - by apply elem_of_nil in Hin.
  - destruct (IH e Hin) as (w & ? & ? & ?). exists w.
    split; [by apply list_elem_of_further | done].
  - apply elem_of_cons in Hin as [->|Hin];
      [exists v; split; [apply list_elem_of_here | done]|].
    apply elem_of_app in Hin as [Hin|Hin].
    { exists v. split; [apply list_elem_of_here|]. split; [done|].
      destruct (unit_event_inv _ _ _ Hall Hin) as [(? & ? & ->)|(? & ->)]; done. }
    apply elem_of_cons in Hin as [->|Hin];
      [exists v; split; [apply list_elem_of_here | done]|].
    apply elem_of_cons in Hin as [->|Hin];
      [exists v; split; [apply list_elem_of_here | done]|].
    destruct (IH e Hin) as (w & ? & ? & ?). exists w.
    split; [by apply list_elem_of_further | done].
  - exists v. split; [apply list_elem_of_here|]. split; [done|].
    apply elem_of_cons in Hin as [->|Hin]; [done|].
    apply elem_of_app in Hin as [Hin|Hin].
    + destruct (unit_event_inv _ _ _ Hall Hin) as [(? & ? & ->)|(? & ->)]; done.
    + by apply list_elem_of_singleton in Hin as ->.
  - exists v. split; [apply list_elem_of_here|]. split; [done|].
    apply elem_of_cons in Hin as [->|Hin]; [done|].
    apply elem_of_app in Hin as [Hin|Hin].
    + destruct (unit_event_inv _ _ _ Hall Hin) as [(? & ? & ->)|(? & ->)]; done.
    + by apply list_elem_of_singleton in Hin as ->.
Qed.

(** A body that returned nil without a completion handshake of its unit
    ends the loop with the CommitNotCalled error. *)
Lemma loop_trace_not_called (applied : gmap string bytes) (ms : list Migration)
    (r : option error) (tr : list Event) (name : string) :
  loop_trace applied ms r tr →
  Returned name None ∈ tr → (∀ key, Handshake name key true ∉ tr) →
  r = Some (Errorf_not_called name).
Proof.
  induction 1 as [|v ms r tr Happ _ IH|v ms r tr evs Happ Hevs Hdone _ IH
                  |v ms evs err Happ [Hall _]|v ms evs Happ [Hall _] _];
    intros Hin Hno.
  - by apply elem_of_nil in Hin.
  - by apply IH.
  - apply elem_of_cons in Hin as [?|Hin]; [done|].
    apply elem_of_app in Hin as [Hin|Hin].
    { destruct (unit_event_inv _ _ _ (proj1 Hevs) Hin)
        as [(? & ? & ?)|(? & ?)]; done. }
    apply elem_of_cons in Hin as [[= ->]|Hin].
    { destruct (unit_events_completion _ _ Hevs Hdone) as [key Hkey].
      destruct (Hno key). apply list_elem_of_further, elem_of_app. by left. }
    apply elem_of_cons in Hin as [?|Hin]; [done|].
    apply IH; [done|]. intros key Hkey. apply (Hno key).
    apply list_elem_of_further, elem_of_app. right.
    by do 2 apply list_elem_of_further.
  - apply elem_of_cons in Hin as [?|Hin]; [done|].
    apply elem_of_app in Hin as [Hin|Hin].
    + destruct (unit_event_inv _ _ _ Hall Hin) as [(? & ? & ?)|(? & ?)]; done.
    + by apply list_elem_of_singleton in Hin.
  - apply elem_of_cons in Hin as [?|Hin]; [done|].
    apply elem_of_app in Hin as [Hin|Hin].
    + destruct (unit_event_inv _ _ _ Hall Hin) as [(? & ? & ?)|(? & ?)]; done.
    + by apply list_elem_of_singleton in Hin as [= ->].
Qed.

(** A body that returned an error ends the loop with that error. *)
Lemma loop_trace_failed (applied : gmap string bytes) (ms : list Migration)
    (r : option error) (tr : list Event) (name : string) (err : error) :
  loop_trace applied ms r tr → Returned name (Some err) ∈ tr → r = Some err.
Proof.
  induction 1 as [|v ms r tr Happ _ IH|v ms r tr evs Happ [Hall _] _ _ IH
                  |v ms evs err' Happ [Hall _]|v ms evs Happ [Hall _] _];
    intros Hin.
  - by apply elem_of_nil in Hin.
  - by apply IH.
  - apply elem_of_cons in Hin as [?|Hin]; [done|].
    apply elem_of_app in Hin as [Hin|Hin].
    { destruct (unit_event_inv _ _ _ Hall Hin) as [(? & ? & ?)|(? & ?)]; done. }
    apply elem_of_cons in Hin as [?|Hin]; [done|].
    apply elem_of_cons in Hin as [?|Hin]; [done|]. by apply IH.
  - apply elem_of_cons in Hin as [?|Hin]; [done|].
    apply elem_of_app in Hin as [Hin|Hin].
    + destruct (unit_event_inv _ _ _ Hall Hin) as [(? & ? & ?)|(? & ?)]; done.
    + by apply list_elem_of_singleton in Hin as [= _ ->].
  - apply elem_of_cons in Hin as [?|Hin]; [done|].
    apply elem_of_app in Hin as [Hin|Hin].
    + destruct (unit_event_inv _ _ _ Hall Hin) as [(? & ? & ?)|(? & ?)]; done.
    + by apply list_elem_of_singleton in Hin.
Qed.

(** The loop logs "Applied migration" for a unit exactly when the unit made
    a completion handshake and its body returned nil. *)
Lemma loop_trace_finished (applied : gmap string bytes) (ms : list Migration)
    (r : option error) (tr : list Event) (name : string) :
  loop_trace applied ms r tr →
  name ∈ finished tr
  ↔ Returned name None ∈ tr ∧ ∃ key, Handshake name key true ∈ tr.
Proof.
  induction 1 as [|v ms r tr Happ _ IH|v ms r tr evs Happ Hevs Hdone _ IH
                  |v ms evs err Happ [Hall _]|v ms evs Happ [Hall _] Hnone].
  - split; [by intros ?%elem_of_nil | by intros [?%elem_of_nil _]].
  - done.
  - destruct (invoked_unit_events _ _ (proj1 Hevs)) as [_ Hfin].
    assert (finished (LogInfo "Apply migration" (Name v) :: evs
              ++ Returned (Name v) None
              :: LogInfo "Applied migration" (Name v) :: tr)
            = Name v :: finished tr) as ->.
    { unfold finished in *. simpl. by rewrite omap_app, Hfin. }
    rewrite elem_of_cons, IH. split.
    + intros [->|[Hret [key Hkey]]].
      * split.
        -- apply list_elem_of_further, elem_of_app. right. apply list_elem_of_here.
        -- destruct (unit_events_completion _ _ Hevs Hdone) as [key Hkey].
           exists key. apply list_elem_of_further, elem_of_app. by left.
      * split.
        -- apply list_elem_of_further, elem_of_app. right.
           by do 2 apply list_elem_of_further.
        -- exists key. apply list_elem_of_further, elem_of_app. right.
           by do 2 apply list_elem_of_further.
    + intros [Hret [key Hkey]].
      destruct (decide (name = Name v)) as [->|Hne]; [by left | right].
      split.
      * apply elem_of_cons in Hret as [?|Hret]; [done|].
        apply elem_of_app in Hret as [Hret|Hret].
        { destruct (unit_event_inv _ _ _ (proj1 Hevs) Hret)
            as [(? & ? & ?)|(? & ?)]; done. }
        apply elem_of_cons in Hret as [[= ?]|Hret]; [done|].
        by apply elem_of_cons in Hret as [?|Hret].
      * exists key. apply elem_of_cons in Hkey as [?|Hkey]; [done|].
        apply elem_of_app in Hkey as [Hkey|Hkey].
        { destruct (unit_event_inv _ _ _ (proj1 Hevs) Hkey)
            as [(? & ? & [= ? _ _])|(? & ?)]; done. }
        apply elem_of_cons in Hkey as [?|Hkey]; [done|].
        by apply elem_of_cons in Hkey as [?|Hkey].
  - destruct (invoked_unit_events _ _ Hall) as [_ Hfin].
    assert (finished (LogInfo "Apply migration" (Name v) :: evs
              ++ [Returned (Name v) (Some err)]) = []) as ->.
    { unfold finished in *. simpl. by rewrite omap_app, Hfin. }
    split; [by intros ?%elem_of_nil|]. intros [Hret _].
    apply elem_of_cons in Hret as [?|Hret]; [done|].
    apply elem_of_app in Hret as [Hret|Hret].
    + destruct (unit_event_inv _ _ _ Hall Hret) as [(? & ? & ?)|(? & ?)]; done.
    + by apply list_elem_of_singleton in Hret.
  - destruct (invoked_unit_events _ _ Hall) as [_ Hfin].
    assert (finished (LogInfo "Apply migration" (Name v) :: evs
              ++ [Returned (Name v) None]) = []) as ->.
    { unfold finished in *. simpl. by rewrite omap_app, Hfin. }
    split; [by intros ?%elem_of_nil|]. intros [_ [key Hkey]].
    apply elem_of_cons in Hkey as [?|Hkey]; [done|].
    apply elem_of_app in Hkey as [Hkey|Hkey].
    + by apply unit_events_no_completion in Hkey.
    + by apply list_elem_of_singleton in Hkey.
Qed.

(** A loop that ends without error invoked, and finished, exactly the units
    that were not yet applied, in the order of the list. *)
Lemma loop_trace_success (applied : gmap string bytes) (ms : list Migration)
    (r : option error) (tr : list Event) :
  loop_trace applied ms r tr → r = None →
  invoked tr = Name <$> filter (λ v, is_applied applied (Name v) = false) ms
  ∧ finished tr = Name <$> filter (λ v, is_applied applied (Name v) = false) ms.
Proof.
  induction 1 as [|v ms r tr Happ _ IH|v ms r tr evs Happ [Hall _] _ _ IH
                  |v ms evs err Happ [Hall _]|v ms evs Happ [Hall _] _];
    intros Hr; try done.
  - rewrite filter_cons_False by congruence. by apply IH.
  - rewrite filter_cons_True by done.
    destruct (invoked_unit_events _ _ Hall) as [Hinv Hfin].
    destruct (IH Hr) as [IHinv IHfin].
    rewrite !fmap_cons. split.
    + rewrite <- IHinv. clear IH IHinv IHfin.
      unfold invoked in *. simpl. by rewrite !omap_app, Hinv.
    + rewrite <- IHfin. clear IH IHinv IHfin.
      unfold finished in *. simpl. by rewrite !omap_app, Hfin.
Qed.

(** Whatever the outcome, the loop invokes the pending units in the order of
    the list, up to the first one that fails. *)
Lemma loop_trace_invoked_prefix (applied : gmap string bytes)
    (ms : list Migration) (r : option error) (tr : list Event) :
  loop_trace applied ms r tr →
  invoked tr `prefix_of`
    (Name <$> filter (λ v, is_applied applied (Name v) = false) ms).
Proof.
  induction 1 as [|v ms r tr Happ _ IH|v ms r tr evs Happ [Hall _] _ _ IH
                  |v ms evs err Happ [Hall _]|v ms evs Happ [Hall _] _].
  - apply prefix_nil.
  - by rewrite filter_cons_False by congruence.
  - rewrite filter_cons_True, fmap_cons by done.
    destruct (invoked_unit_events _ _ Hall) as [Hinv _].
    assert (invoked (LogInfo "Apply migration" (Name v) :: evs
              ++ Returned (Name v) None
              :: LogInfo "Applied migration" (Name v) :: tr)
            = Name v :: invoked tr) as ->.
    { unfold invoked in *. simpl. by rewrite omap_app, Hinv. }
    by apply prefix_cons.
  - rewrite filter_cons_True, fmap_cons by done.
    destruct (invoked_unit_events _ _ Hall) as [Hinv _].
    assert (invoked (LogInfo "Apply migration" (Name v) :: evs
              ++ [Returned (Name v) (Some err)]) = [Name v]) as ->.
    { unfold invoked in *. simpl. by rewrite omap_app, Hinv. }
    apply prefix_cons, prefix_nil.
  - rewrite filter_cons_True, fmap_cons by done.
    destruct (invoked_unit_events _ _ Hall) as [Hinv _].
    assert (invoked (LogInfo "Apply migration" (Name v) :: evs
              ++ [Returned (Name v) None]) = [Name v]) as ->.
    { unfold invoked in *. simpl. by rewrite omap_app, Hinv. }
    apply prefix_cons, prefix_nil.
Qed.

(** The engine writes a record only in a completion handshake. *)
Lemma loop_trace_recorded (applied : gmap string bytes) (ms : list Migration)
    (r : option error) (tr : list Event) (name : string) (payload : bytes) :
  loop_trace applied ms r tr → Recorded name payload ∈ tr →
  ∃ key, Handshake name key true ∈ tr.
Proof.
  assert (∀ v evs, unit_events (Name v) evs → Recorded name payload ∈ evs →
            ∃ key, Handshake name key true ∈ evs) as Hunit.
  { intros v evs Hevs Hin.
    destruct (unit_event_inv _ _ _ (proj1 Hevs) Hin)
      as [(? & ? & ?)|(? & [= -> _])]; [done|].
    apply unit_events_completion; [done|]. apply (proj2 Hevs).
    apply existsb_record. eauto. }
  induction 1 as [|v ms r tr Happ _ IH|v ms r tr evs Happ Hevs _ _ IH
                  |v ms evs err Happ Hevs|v ms evs Happ Hevs _];
    intros Hin.
  - by apply elem_of_nil in Hin.
  - by apply IH.
  - apply elem_of_cons in Hin as [?|Hin]; [done|].
    apply elem_of_app in Hin as [Hin|Hin].
    { destruct (Hunit v evs Hevs Hin) as [key Hkey]. exists key.
      apply list_elem_of_further, elem_of_app. by left. }
    apply elem_of_cons in Hin as [?|Hin]; [done|].
    apply elem_of_cons in Hin as [?|Hin]; [done|].
    destruct (IH Hin) as [key Hkey]. exists key.
    apply list_elem_of_further, elem_of_app. right.
    by do 2 apply list_elem_of_further.
  - apply elem_of_cons in Hin as [?|Hin]; [done|].
    apply elem_of_app in Hin as [Hin|Hin].
    + destruct (Hunit v evs Hevs Hin) as [key Hkey]. exists key.
      apply list_elem_of_further, elem_of_app. by left.
    + by apply list_elem_of_singleton in Hin.
  - apply elem_of_cons in Hin as [?|Hin]; [done|].
    apply elem_of_app in Hin as [Hin|Hin].
    + destruct (Hunit v evs Hevs Hin) as [key Hkey]. exists key.
      apply list_elem_of_further, elem_of_app. by left.
    + by apply list_elem_of_singleton in Hin.
Qed.

(** When every unit is already applied the loop does nothing. *)
Lemma apply_units_all_applied {env : Externals} (datadir : string)
    (applied : gmap string bytes) (ms : list Migration) (st : State) :
  (∀ v, v ∈ ms → is_applied applied (Name v) = true) →
  apply_units datadir applied ms st = (None, st).
Proof.
  induction ms as [|v ms IH]; intros Hall; [done|].
  cbn [apply_units]. unfold mbind, M_bind, bind.
  rewrite apply_unit_applied by apply Hall, list_elem_of_here.
  apply IH. intros w Hw. by apply Hall, list_elem_of_further.
Qed.

(** ** The moves of the state *)

Lemma rtc_invariant {A} (R : relation A) (P : A → Prop) (x y : A) :
  (∀ a b, R a b → P a → P b) → rtc R x y → P x → P y.
Proof. intros Hstep. induction 1; eauto. Qed.

Lemma run_steps_any {env : Externals} (name : string) (body : Script) (st : State) :
  rtc (unit_step any_write name) st (run (commit_handler name) body st).2.
Proof.
  revert st.
  induction body as [err|b k cont IH|b k v cont IH|b k cont IH|b cont IH
                     |b cont IH|b cont IH|key isDone cont IH]; intros st;
    cbn [run]; unfold mbind, M_bind, bind, tx_read, tx_update.
  - apply rtc_refl.
  - apply IH.
  - eapply rtc_l; [|apply IH]. by apply step_write.
  - eapply rtc_l; [|apply IH]. by apply step_write.
  - apply IH.
  - eapply rtc_l; [|apply IH]. by apply step_write.
  - eapply rtc_l; [|apply IH]. by apply step_write.
  - destruct (commit_handler name key isDone st) as [err st1] eqn:Hh.
    eapply rtc_l; [apply (step_handshake _ _ st key isDone)|].
    rewrite Hh. apply IH.
Qed.

Lemma run_steps_off {env : Externals} (name : string) (body : Script) (st : State) :
  keeps_off_tracking body →
  rtc (unit_step same_tracking name) st (run (commit_handler name) body st).2.
Proof.
  revert st.
  induction body as [err|b k cont IH|b k v cont IH|b k cont IH|b cont IH
                     |b cont IH|b cont IH|key isDone cont IH]; intros st Hoff;
    cbn [run]; unfold mbind, M_bind, bind, tx_read, tx_update; simpl in Hoff.
  - apply rtc_refl.
  - by apply IH.
  - destruct Hoff as [Hb Hoff]. eapply rtc_l; [|by apply IH].
    apply step_write. unfold same_tracking, store_put.
    by rewrite lookup_insert_ne.
  - destruct Hoff as [Hb Hoff]. eapply rtc_l; [|by apply IH].
    apply step_write. unfold same_tracking, store_delete.
    by rewrite lookup_alter_ne.
  - by apply IH.
  - destruct Hoff as [Hb Hoff]. eapply rtc_l; [|by apply IH].
    apply step_write. unfold same_tracking, store_drop.
    by rewrite lookup_delete_ne.
  - destruct Hoff as [Hb Hoff]. eapply rtc_l; [|by apply IH].
    apply step_write. unfold same_tracking, store_clear.
    by rewrite lookup_insert_ne.
  - destruct (commit_handler name key isDone st) as [err st1] eqn:Hh.
    eapply rtc_l; [apply (step_handshake _ _ st key isDone)|].
    rewrite Hh. by apply IH.
Qed.

(** The round of one unit, cut into its moves: the bookkeeping before the
    body, the moves of the body, the bookkeeping after it. *)
Lemma apply_unit_steps {env : Externals} (W : Store → Store → Prop)
    (datadir : string) (applied : gmap string bytes) (v : Migration) (st : State) :
  (∀ tmpdir progress st,
     rtc (unit_step W (Name v)) st
       (run (commit_handler (Name v)) (Up v tmpdir progress) st).2) →
  is_applied applied (Name v) = false →
  ∃ started st2,
    started = MkState (db st) (tx st) false
                (trace st ++ [LogInfo "Apply migration" (Name v)])
    ∧ rtc (unit_step W (Name v)) started st2
    ∧ engine_step W st2 (apply_unit datadir applied v st).2
    ∧ db (apply_unit datadir applied v st).2 = db st2
    ∧ tx (apply_unit datadir applied v st).2 = tx st2
    ∧ ((apply_unit datadir applied v st).1 = None → commitFuncCalled st2 = true).
Proof.
  intros Hbody Happ. rewrite apply_unit_pending by done. cbn zeta.
  match goal with |- context [run ?h ?b ?s] =>
    pose proof (Hbody (path_Join [datadir; "migrations"; Name v])
                  (store_get (tx st) dbutils.Migrations
                     (progress_prefix +:+ Name v)) s) as Hrun;
    destruct (run h b s) as [err st2] end.
  simpl in Hrun. eexists _, st2. split; [done|]. split; [done|].
  destruct err as [err|]; [|destruct (commitFuncCalled st2) eqn:Hc]; simpl.
  - split; [|done].
    apply (step_bookkeeping W st2 (commitFuncCalled st2)
             [Returned (Name v) (Some err)]).
    by repeat constructor.
  - split; [|done]. rewrite <- app_assoc.
    apply (step_bookkeeping W st2 true
             [Returned (Name v) None; LogInfo "Applied migration" (Name v)]).
    by repeat constructor.
  - split; [|done].
    apply (step_bookkeeping W st2 false [Returned (Name v) None]).
    by repeat constructor.
Qed.

Lemma unit_steps_engine {env : Externals} (W : Store → Store → Prop)
    (name : string) (st st' : State) :
  rtc (unit_step W name) st st' → rtc (engine_step W) st st'.
Proof.
  induction 1 as [|a b c Hab _ IH]; [apply rtc_refl|].
  eapply rtc_l; [|exact IH]. by eapply step_unit.
Qed.

Lemma apply_units_steps {env : Externals} (W : Store → Store → Prop)
    (datadir : string) (applied : gmap string bytes) (ms : list Migration)
    (st : State) :
  (∀ v tmpdir progress st, v ∈ ms →
     rtc (unit_step W (Name v)) st
       (run (commit_handler (Name v)) (Up v tmpdir progress) st).2) →
  rtc (engine_step W) st (apply_units datadir applied ms st).2.
Proof.
  revert st. induction ms as [|v ms IH]; intros st Hbodies; [apply rtc_refl|].
  cbn [apply_units]. unfold mbind, M_bind, bind.
  assert (∀ st, rtc (engine_step W) st (apply_units datadir applied ms st).2)
    as IH'.
  { intros st'. apply IH. intros w ? ? ? Hw.
    by apply Hbodies, list_elem_of_further. }
  destruct (is_applied applied (Name v)) eqn:Happ.
  { rewrite apply_unit_applied by done. apply IH'. }
  destruct (apply_unit_steps W datadir applied v st)
    as (started & st2 & -> & Hrun & Hend & _); [|done|].
  { intros. apply Hbodies, list_elem_of_here. }
  destruct (apply_unit datadir applied v st) as [r st1]. simpl in Hend.
  assert (rtc (engine_step W) st st1) as Hround.
  { eapply rtc_l.
    - apply (step_bookkeeping W st false [LogInfo "Apply migration" (Name v)]).
      by repeat constructor.
    - eapply rtc_trans; [by eapply unit_steps_engine|]. by apply rtc_once. }
  destruct r as [err|]; [done|].
  eapply rtc_trans; [exact Hround | apply IH'].
Qed.

(** ** Records in the migrations bucket *)

Lemma string_length_app (s1 s2 : string) :
  String.length (s1 +:+ s2) = String.length s1 + String.length s2.
Proof. induction s1 as [|a s1 IH]; simpl; [done | by rewrite IH]. Qed.

Lemma checkpoint_key_ne_self (name : string) : progress_prefix +:+ name ≠ name.
Proof.
  intros Heq. apply (f_equal String.length) in Heq.
  rewrite string_length_app in Heq. simpl in Heq. lia.
Qed.

Lemma record_put_ne (s : Store) (b k : string) (v : bytes) (x : string) :
  k ≠ x →
  store_get (store_put s b k v) dbutils.Migrations x
  = store_get s dbutils.Migrations x.
Proof.
  intros Hne. rewrite store_get_put.
  by rewrite bool_decide_eq_false_2 by (intros [_ ?]; done).
Qed.

Lemma record_delete_ne (s : Store) (b k x : string) :
  k ≠ x →
  store_get (store_delete s b k) dbutils.Migrations x
  = store_get s dbutils.Migrations x.
Proof.
  intros Hne. rewrite store_get_delete.
  by rewrite bool_decide_eq_false_2 by (intros [_ ?]; done).
Qed.

Lemma record_same_tracking (s s' : Store) (x : string) :
  same_tracking s s' →
  store_get s' dbutils.Migrations x = store_get s dbutils.Migrations x.
Proof. unfold same_tracking, store_get. by intros ->. Qed.

Lemma has_record_put (s : Store) (b k : string) (v : bytes) (x : string) :
  has_record s x → has_record (store_put s b k v) x.
Proof.
  unfold has_record. rewrite store_get_put. by case_bool_decide.
Qed.

(** The store a completion handshake of [name] leaves behind holds the
    record of [name], and keeps every record that is not a checkpoint of
    [name]. *)
Lemma completion_store_record (s : Store) (name : string) (payload : bytes) :
  has_record (store_delete (store_put s dbutils.Migrations name payload)
                dbutils.Migrations (progress_prefix +:+ name)) name.
Proof.
  unfold has_record.
  rewrite record_delete_ne by apply checkpoint_key_ne_self.
  rewrite store_get_put. by rewrite bool_decide_eq_true_2.
Qed.

Lemma completion_store_keeps (s : Store) (name : string) (payload : bytes)
    (x : string) :
  has_prefix x = false → has_record s x →
  has_record (store_delete (store_put s dbutils.Migrations name payload)
                dbutils.Migrations (progress_prefix +:+ name)) x.
Proof.
  intros Hx Hrec. unfold has_record.
  rewrite record_delete_ne by by apply checkpoint_key_ne.
  by apply has_record_put.
Qed.

Lemma completion_store_other (s : Store) (name : string) (payload : bytes)
    (x : string) :
  has_prefix x = false → name ≠ x →
  store_get (store_delete (store_put s dbutils.Migrations name payload)
               dbutils.Migrations (progress_prefix +:+ name))
    dbutils.Migrations x
  = store_get s dbutils.Migrations x.
Proof.
  intros Hx Hne.
  rewrite record_delete_ne by by apply checkpoint_key_ne.
  by rewrite record_put_ne.
Qed.

(** ** What the moves preserve *)

Lemma engine_step_keeps_record {env : Externals} (x : string) (st st' : State) :
  has_prefix x = false →
  engine_step same_tracking st st' →
  has_record (tx st) x → has_record (tx st') x.
Proof.
  intros Hx [name a b [a' s' Hw|a' key isDone]|a called evs _] Hrec; simpl.
  - unfold has_record. by rewrite (record_same_tracking _ _ _ Hw).
  - destruct isDone.
    + rewrite commit_handler_completion. simpl.
      by apply completion_store_keeps.
    + rewrite commit_handler_checkpoint. simpl.
      destruct key; [by apply has_record_put | done].
  - done.
Qed.

Lemma unit_step_records {env : Externals} (name : string) (st st' : State) :
  unit_step same_tracking name st st' →
  (commitFuncCalled st = true → has_record (tx st) name) →
  commitFuncCalled st' = true → has_record (tx st') name.
Proof.
  intros [a s' Hw|a key isDone] Hinv; simpl.
  - intros Hc. unfold has_record.
    rewrite (record_same_tracking _ _ _ Hw). by apply Hinv.
  - destruct isDone.
    + rewrite commit_handler_completion. simpl. intros _.
      apply completion_store_record.
    + rewrite commit_handler_checkpoint. simpl. intros Hc.
      destruct key; [apply has_record_put|]; by apply Hinv.
Qed.

Lemma completed_app (tr evs : list Event) (name : string) :
  completed tr name → completed (tr ++ evs) name.
Proof. intros [key Hin]. exists key. apply elem_of_app. by left. Qed.

Lemma engine_step_needs_completion {env : Externals} (x : string)
    (st st' : State) :
  has_prefix x = false →
  engine_step same_tracking st st' →
  record_needs_completion x st → record_needs_completion x st'.
Proof.
  unfold record_needs_completion, has_record.
  intros Hx [name a b [a' s' Hw|a' key isDone]|a called evs _] Hinv; simpl.
  - by rewrite (record_same_tracking _ _ _ Hw).
  - destruct isDone.
    + rewrite commit_handler_completion. simpl.
      destruct (decide (name = x)) as [->|Hne].
      * left. exists key. apply elem_of_app. right. apply list_elem_of_here.
      * destruct Hinv as [Hdone|[_ Htx]]; [left; by apply completed_app|].
        right. by rewrite completion_store_other.
    + rewrite commit_handler_checkpoint. simpl.
      destruct Hinv as [Hdone|[_ Htx]]; [left; by apply completed_app|].
      right. destruct key; [|done].
      by rewrite record_put_ne by by apply checkpoint_key_ne.
  - destruct Hinv as [Hdone|?]; [left; by apply completed_app | by right].
Qed.

Lemma handshakes_bookkeeping (evs : list Event) :
  Forall (λ e, is_unit_event e = false) evs → handshakes evs = [].
Proof.
  induction 1 as [|e evs He _ IH]; [done|].
  unfold handshakes in *. destruct e; simpl in *; done.
Qed.

Lemma engine_step_durable {env : Externals} (st st' : State) :
  engine_step any_write st st' →
  completion_is_durable st → completion_is_durable st'.
Proof.
  unfold completion_is_durable, last_handshake.
  intros [name a b [a' s' Hw|a' key isDone]|a called evs Hevs] Hinv n k; simpl.
  - apply Hinv.
  - destruct isDone.
    + rewrite commit_handler_completion. simpl.
      unfold handshakes. rewrite omap_app. simpl. rewrite last_snoc.
      intros [= -> ->]. apply completion_store_record.
    + rewrite commit_handler_checkpoint. simpl.
      unfold handshakes. rewrite omap_app. simpl. by rewrite last_snoc.
  - unfold handshakes in *. rewrite omap_app.
    pose proof (handshakes_bookkeeping _ Hevs) as Hnil.
    unfold handshakes in Hnil. rewrite Hnil, app_nil_r. apply Hinv.
Qed.

(** ** Records after a run that leaves the bucket to the engine *)

Lemma apply_units_records {env : Externals} (datadir : string)
    (applied : gmap string bytes) (ms : list Migration) (st : State) :
  (∀ v, v ∈ ms → well_behaved v ∧ has_prefix (Name v) = false) →
  (apply_units datadir applied ms st).1 = None →
  ∀ v, v ∈ ms → is_applied applied (Name v) = false →
       has_record (tx (apply_units datadir applied ms st).2) (Name v).
Proof.
  revert st. induction ms as [|v ms IH]; intros st Hms Hok w Hw Hpending.
  { by apply elem_of_nil in Hw. }
  assert (∀ u tmpdir progress st, u ∈ v :: ms →
            rtc (unit_step same_tracking (Name u)) st
              (run (commit_handler (Name u)) (Up u tmpdir progress) st).2)
    as Hbodies.
  { intros u ? ? ? Hu. apply run_steps_off. by apply Hms. }
  revert Hok. cbn [apply_units]. unfold mbind, M_bind, bind.
  destruct (is_applied applied (Name v)) eqn:Happ.
  { rewrite apply_unit_applied by done. intros Hok.
    apply elem_of_cons in Hw as [->|Hw]; [congruence|].
    apply IH; try done. intros u Hu. by apply Hms, list_elem_of_further. }
  destruct (apply_unit_steps same_tracking datadir applied v st)
    as (started & st2 & -> & Hrun & _ & _ & Htx & Hcalled); [|done|].
  { intros. apply Hbodies, list_elem_of_here. }
  destruct (apply_unit datadir applied v st) as [[err|] st1]; [done|].
  simpl in Htx, Hcalled. intros Hok.
  apply elem_of_cons in Hw as [->|Hw].
  - apply (rtc_invariant (engine_step same_tracking)
             (λ st, has_record (tx st) (Name v)) st1).
    + intros a b. apply engine_step_keeps_record. by apply Hms, list_elem_of_here.
    + apply apply_units_steps. intros u ? ? ? Hu.
      by apply Hbodies, list_elem_of_further.
    + rewrite Htx.
      refine (rtc_invariant (unit_step same_tracking (Name v))
                (λ st, commitFuncCalled st = true → has_record (tx st) (Name v))
                _ st2 _ Hrun _ (Hcalled eq_refl)).
      * intros a b. apply unit_step_records.
      * done.
  - apply IH; try done. intros u Hu. by apply Hms, list_elem_of_further.
Qed.

(** ** The schema version *)







(** ** The events of [Apply] *)

Lemma Apply_trace {env : Externals} (m : Migrator) (s : Store)
    (datadir : string) (mdbx : bool) :
  let o := Apply m s datadir mdbx in
  (events o = [] ∧ database o = s)
  ∨ ∃ tr, loop_trace (AppliedMigrations s false) (Migrations m) (result o) tr
          ∧ events o = tr ++ match result o with
                             | None => [LogUpdated (schema_version mdbx)]
                             | Some _ => []
                             end.
Proof.
  intros o. subst o.
  destruct (Apply_cases m s datadir mdbx)
    as [[_ ->]|[(dup & _ & ->)|(_ & _ & st & tr & _ & _ & Hloop & Hout)]];
    [by left..|].
  right. exists tr. split; [done|].
  destruct (result _); destruct Hout as [_ ->]; [by rewrite app_nil_r | done].
Qed.

Lemma elem_of_loop_events (tr : list Event) (r : option error) (v : Version)
    (e : Event) :
  e ∈ tr ++ match r with None => [LogUpdated v] | Some _ => [] end →
  e ≠ LogUpdated v → e ∈ tr.
Proof.
  intros [?|Hin]%elem_of_app Hne; [done|].
  destruct r; [by apply elem_of_nil in Hin|].
  by apply list_elem_of_singleton in Hin.
Qed.

Lemma finished_loop_events (tr : list Event) (r : option error) (v : Version) :
  finished (tr ++ match r with None => [LogUpdated v] | Some _ => [] end)
  = finished tr
  ∧ invoked (tr ++ match r with None => [LogUpdated v] | Some _ => [] end)
    = invoked tr.
Proof.
  unfold finished, invoked. rewrite !omap_app.
  destruct r; simpl; by rewrite !app_nil_r.
Qed.

(** C5, as amended: for a body that returned nil, the loop accepts the unit
    (it logs "Applied migration" and goes on) when the unit made a
    completion handshake at any point of its run, and fails with the
    CommitNotCalled error exactly when it made none. *)
Theorem completion_anywhere_counts {env : Externals} (m : Migrator) (s : Store)
    (datadir : string) (mdbx : bool) (name : string) :
  returned (events (Apply m s datadir mdbx)) name None →
  (completed (events (Apply m s datadir mdbx)) name
   ↔ name ∈ finished (events (Apply m s datadir mdbx)))
  ∧ (¬ completed (events (Apply m s datadir mdbx)) name
     → result (Apply m s datadir mdbx) = Some (Errorf_not_called name)).
Proof.
  intros Hret. unfold returned in Hret.
  destruct (Apply_trace m s datadir mdbx) as [[Hnil _]|(tr & Hloop & Hev)].
  { rewrite Hnil in Hret. by apply elem_of_nil in Hret. }
  rewrite Hev in *. clear Hev.
  apply elem_of_loop_events in Hret; [|done].
  rewrite (proj1 (finished_loop_events _ _ _)).
  assert (completed (tr ++ match result (Apply m s datadir mdbx) with
                           | None => [LogUpdated (schema_version mdbx)]
                           | Some _ => []
                           end) name
          ↔ ∃ key, Handshake name key true ∈ tr) as Hdone.
  { split; intros [key Hkey]; exists key.
    - by apply elem_of_loop_events in Hkey.
    - apply elem_of_app. by left. }
  rewrite Hdone, (loop_trace_finished _ _ _ _ name Hloop). split.
  - split; [by intros ? | by intros [_ ?]].
  - intros Hnot. apply (loop_trace_not_called _ _ _ _ _ Hloop Hret).
    intros key Hkey. apply Hnot. by exists key.
Qed.

(** A body that completes and afterwards saves a checkpoint. *)
Lemma completion_anywhere_counts_witness :
  let body := λ (_ : string) (_ : option bytes),
    OnLoadCommit None true (λ _, OnLoadCommit (Some [7%Z]) false Return) in
  "one" ∈ finished (events (Apply (env := test_externals)
                              (MkMigrator [MkMigration "one" body]) ∅ "" false)).
Proof.
  intros body.
  apply (completion_anywhere_counts (env := test_externals)
           (MkMigrator [MkMigration "one" body]) ∅ "" false "one").
  - vm_compute. do 4 apply list_elem_of_further. apply list_elem_of_here.
  - exists None. vm_compute. apply list_elem_of_further, list_elem_of_here.
Defined.

(** C5, as stated, fails: the last invocation of the commit handler before
    the body returns nil is a checkpoint invocation, and [Apply] returns
    nil. *)
Lemma checkpoint_after_completion_not_caught :
  let body := λ (_ : string) (_ : option bytes),
    OnLoadCommit None true (λ _, OnLoadCommit None false Return) in
  let o := Apply (env := test_externals)
             (MkMigrator [MkMigration "one" body]) ∅ "" false in
  returned (events o) "one" None
  ∧ last_handshake (events o) = Some ("one", None, false)
  ∧ result o = None.
Proof.
  intros body o. split; [|split; reflexivity].
  vm_compute. do 4 apply list_elem_of_further. apply list_elem_of_here.
Qed.

(** ** Units that are already applied *)

Lemma elem_of_invoked (tr : list Event) (name : string) :
  name ∈ invoked tr ↔ LogInfo "Apply migration" name ∈ tr.
Proof.
  unfold invoked. rewrite list_elem_of_omap. split.
  - intros (e & Hin & He). destruct e as [msg n| | | |]; try done.
    case_bool_decide; [|done]. by simplify_eq.
  - intros Hin. exists (LogInfo "Apply migration" name). split; [done|].
    by rewrite bool_decide_eq_true_2.
Qed.

(** A run has no event of a unit that [AppliedMigrations] reported at its
    start. *)
Lemma applied_unit_silent {env : Externals} (m : Migrator) (s : Store)
    (datadir : string) (mdbx : bool) (name : string) (e : Event) :
  is_applied (AppliedMigrations s false) name = true →
  e ∈ events (Apply m s datadir mdbx) → event_unit e ≠ Some name.
Proof.
  intros Happ Hin Hunit.
  destruct (Apply_trace m s datadir mdbx) as [[Hnil _]|(tr & Hloop & Hev)].
  { rewrite Hnil in Hin. by apply elem_of_nil in Hin. }
  rewrite Hev in Hin. apply elem_of_loop_events in Hin.
  - destruct (loop_trace_event _ _ _ _ _ Hloop Hin) as (v & _ & Hv & Hname).
    rewrite Hunit in Hname. injection Hname as ->. congruence.
  - intros ->. done.
Qed.

Lemma AppliedMigrations_other_bucket (s : Store) (b k : string) (v : bytes)
    (withPayload : bool) :
  b ≠ dbutils.Migrations →
  AppliedMigrations (store_put s b k v) withPayload = AppliedMigrations s withPayload.
Proof.
  intros Hne. unfold AppliedMigrations, store_walk, store_put.
  by rewrite lookup_insert_ne.
Qed.



(** After a successful run over units that leave the migrations bucket to
    the engine and whose names are not checkpoint keys, every registered
    name has its record and is reported as applied. *)
Lemma Apply_success_records {env : Externals} (m : Migrator) (s : Store)
    (datadir : string) (mdbx : bool) :
  Forall well_behaved (Migrations m) →
  (∀ x, x ∈ names m → has_prefix x = false) →
  result (Apply m s datadir mdbx) = None →
  (∀ x, has_prefix x = false → has_record s x →
        has_record (database (Apply m s datadir mdbx)) x)
  ∧ (∀ x, x ∈ names m → has_record (database (Apply m s datadir mdbx)) x).
Proof.
  intros Hbodies Hnames Hok. rewrite Forall_forall in Hbodies.
  destruct (Apply_cases m s datadir mdbx)
    as [[Hnil Hout]|[(dup & _ & Hout)|(_ & _ & st & tr & Hrun & _ & _ & Hout)]].
  - rewrite Hout. simpl. split; [done|]. unfold names. rewrite Hnil.
    by intros x ?%elem_of_nil.
  - rewrite Hout in Hok. done.
  - rewrite Hok in Hout, Hrun. destruct Hout as [-> _].
    assert (∀ x, has_prefix x = false → has_record s x → has_record (tx st) x)
      as Hkept.
    { intros x Hx Hrec.
      pose proof (apply_units_steps same_tracking datadir
                    (AppliedMigrations s false) (Migrations m)
                    (MkState s s false [])) as Hsteps.
      rewrite Hrun in Hsteps. simpl in Hsteps.
      apply (rtc_invariant _ (λ st, has_record (tx st) x) _ _
               (λ a b, engine_step_keeps_record x a b Hx)
               (Hsteps ltac:(intros v' ? ? ? Hv'; apply run_steps_off;
                               by apply Hbodies))).
      done. }
    split.
    + intros x Hx Hrec. by apply has_record_put, Hkept.
    + intros x Hx. apply has_record_put.
      apply list_elem_of_fmap in Hx as (v & -> & Hv).
      destruct (is_applied (AppliedMigrations s false) (Name v)) eqn:Happ.
      * apply is_applied_spec in Happ as [Hrec Hp]. by apply Hkept.
      * pose proof (apply_units_records datadir (AppliedMigrations s false)
                      (Migrations m) (MkState s s false [])) as Hrecs.
        rewrite Hrun in Hrecs. simpl in Hrecs. apply Hrecs; try done.
        intros u Hu. split; [by apply Hbodies|].
        apply Hnames. unfold names. apply list_elem_of_fmap. eauto.
Qed.

(** C10, as amended: when the last handshake of a run is a completion
    handshake of a unit whose name does not begin with "_progress_" and the
    body of that unit then returns an error, [Apply] returns that error, the
    record of the unit is in the committed database all the same, the name
    is in the applied set, and no later [Apply] on that database invokes a
    body under that name. *)
Theorem completed_then_failed {env : Externals} (m : Migrator) (s : Store)
    (datadir : string) (mdbx : bool) (name : string) (key : option bytes)
    (err : error) :
  has_prefix name = false →
  returned (events (Apply m s datadir mdbx)) name (Some err) →
  last_handshake (events (Apply m s datadir mdbx)) = Some (name, key, true) →
  result (Apply m s datadir mdbx) = Some err
  ∧ has_record (database (Apply m s datadir mdbx)) name
  ∧ name ∈ applied_set (database (Apply m s datadir mdbx))
  ∧ ∀ m' datadir' mdbx',
      name ∉ invoked (events (Apply m' (database (Apply m s datadir mdbx))
                                datadir' mdbx')).
Proof.
  intros Hname Hret Hlast. unfold returned in Hret.
  destruct (Apply_cases m s datadir mdbx)
    as [[_ Hout]|[(dup & _ & Hout)|(_ & _ & st & tr & Hrun & Htr & Hloop & Hout)]].
  { rewrite Hout in Hret. by apply elem_of_nil in Hret. }
  { rewrite Hout in Hret. by apply elem_of_nil in Hret. }
  assert (result (Apply m s datadir mdbx) = Some err) as Hres.
  { apply (loop_trace_failed _ _ _ _ name err Hloop).
    destruct (result _); destruct Hout as [_ Hev]; rewrite Hev in Hret; [done|].
    apply elem_of_app in Hret as [?|Hret]; [done|].
    by apply list_elem_of_singleton in Hret. }
  rewrite Hres in Hout. destruct Hout as [Hdb Hev].
  assert (has_record (database (Apply m s datadir mdbx)) name) as Hrec.
  { rewrite Hdb. rewrite Hev, <- Htr in Hlast.
    pose proof (apply_units_steps any_write datadir
                  (AppliedMigrations s false) (Migrations m)
                  (MkState s s false [])) as Hsteps.
    rewrite Hrun in Hsteps. simpl in Hsteps.
    assert (completion_is_durable st) as Hdurable.
    { apply (rtc_invariant _ completion_is_durable _ _ engine_step_durable
               (Hsteps ltac:(intros; apply run_steps_any))).
      intros n k Hl. done. }
    exact (Hdurable name key Hlast). }
  split; [done|]. split; [done|]. split; [by apply elem_of_applied_set|].
  intros m' datadir' mdbx' Hin%elem_of_invoked.
  eapply (applied_unit_silent m' _ datadir' mdbx' name); [|exact Hin|done].
  by apply is_applied_spec.
Qed.

Lemma completed_then_failed_witness :
  let boom := MkError None "boom" in
  let body := λ (_ : string) (_ : option bytes),
    OnLoadCommit None true (λ _, Return (Some boom)) in
  has_record (database (Apply (env := test_externals)
                          (MkMigrator [MkMigration "one" body]) ∅ "" false)) "one".
Proof.
  intros boom body.
  apply (completed_then_failed (env := test_externals)
           (MkMigrator [MkMigration "one" body]) ∅ "" false "one" None boom).
  - reflexivity.
  - vm_compute. do 3 apply list_elem_of_further. apply list_elem_of_here.
  - reflexivity.
Defined.

(** C10, as stated, fails for a unit whose name begins with "_progress_":
    its record is committed, and the next [Apply] invokes its body again. *)
Lemma prefixed_unit_not_skipped_after_failure :
  let boom := MkError None "boom" in
  let body := λ (_ : string) (_ : option bytes),
    OnLoadCommit None true (λ _, Return (Some boom)) in
  let m := MkMigrator [MkMigration "_progress_x" body] in
  let o := Apply (env := test_externals) m ∅ "" false in
  result o = Some boom
  ∧ has_record (database o) "_progress_x"
  ∧ invoked (events (Apply (env := test_externals) m (database o) "" false))
    = ["_progress_x"].
Proof.
  intros boom body m o. split; [reflexivity|]. split; [|reflexivity].
  by eexists.
Qed.

(** C3, as stated, fails for a unit whose name begins with "_progress_":
    its record exists before [Apply] runs, and its body is invoked. *)
Lemma prefixed_unit_invoked_despite_record :
  let m := MkMigrator [MkMigration "_progress_x" complete_at_once] in
  let s := store_put ∅ dbutils.Migrations "_progress_x" [1%Z] in
  has_record s "_progress_x"
  ∧ invoked (events (Apply (env := test_externals) m s "" false)) = ["_progress_x"].
Proof. intros m s. split; [by eexists | reflexivity]. Qed.

(** ** Applying twice *)

Lemma Apply_all_applied {env : Externals} (m : Migrator) (s : Store)
    (datadir : string) (mdbx : bool) :
  Migrations m ≠ [] → NoDup (names m) →
  (∀ v, v ∈ Migrations m → is_applied (AppliedMigrations s false) (Name v) = true) →
  Apply m s datadir mdbx =
    MkOutcome None
      (store_put s dbutils.DatabaseInfoBucket dbutils.DBSchemaVersionKey
         (version_bytes mdbx))
      [LogUpdated (schema_version mdbx)].
Proof.
  intros Hne Hnd Hall. rewrite Apply_unique by done.
  by rewrite apply_units_all_applied.
Qed.


Lemma removeCliqueBucket_well_behaved : well_behaved removeCliqueBucket.
Proof. intros tmpdir progress. simpl. intros [|]; simpl; done. Qed.


(** * Further properties *)

(** ** The listing queries *)

(** X1: with payloads [AppliedMigrations] maps every reported name to the
    bytes stored under it, without payloads to the empty slice, and both
    report the same names. *)
Theorem AppliedMigrations_payloads (s : Store) (name : string) :
  dom (AppliedMigrations s true) = dom (AppliedMigrations s false)
  ∧ (∀ v, AppliedMigrations s true !! name = Some v
          ↔ store_get s dbutils.Migrations name = Some v ∧ has_prefix name = false)
  ∧ (∀ v, AppliedMigrations s false !! name = Some v → v = []).
Proof.
  split; [|split].
  - apply set_eq. intros x. rewrite !elem_of_dom, !AppliedMigrations_lookup.
    destruct (has_prefix x); [done|]. by rewrite !fmap_is_Some.
  - intros v. rewrite AppliedMigrations_lookup.
    destruct (has_prefix name).
    + split; [done | by intros [_ ?]].
    + destruct (store_get s dbutils.Migrations name); simpl;
        (split; [by intros ? | by intros [? _]]).
  - intros v. rewrite AppliedMigrations_lookup.
    destruct (has_prefix name); [done|].
    destruct (store_get s dbutils.Migrations name); simpl; [|done].
    by intros [= <-].
Qed.

(** ** The duplicate check *)

Lemma uniqueNameCheck_first (seen : gmap string bool) (ms : list Migration)
    (dup : string) :
  uniqueNameCheck seen ms = Some dup →
  ∃ j, (Name <$> ms) !! j = Some dup
       ∧ (is_Some (seen !! dup) ∨ dup ∈ take j (Name <$> ms))
       ∧ NoDup (take j (Name <$> ms))
       ∧ ∀ x, x ∈ take j (Name <$> ms) → seen !! x = None.
Proof.
  revert seen. induction ms as [|v ms IH]; intros seen; simpl; [done|].
  destruct (seen !! Name v) eqn:Hseen.
  - intros [= <-]. exists 0. split; [done|]. split; [left; by rewrite Hseen|].
    split; [constructor | by intros x ?%elem_of_nil].
  - intros (j & Hj & Hdup & Hnd & Hfresh)%IH. exists (S j).
    split; [done|]. simpl. split; [|split].
    + destruct (decide (Name v = dup)) as [->|Hne].
      * right. apply list_elem_of_here.
      * rewrite lookup_insert_ne in Hdup by done.
        destruct Hdup as [?|?]; [by left | right].
        by apply list_elem_of_further.
    + apply NoDup_cons. split; [|done]. intros Hin.
      apply Hfresh in Hin. by rewrite lookup_insert_eq in Hin.
    + intros x [->|Hin]%elem_of_cons; [done|].
      specialize (Hfresh x Hin).
      destruct (decide (Name v = x)) as [Heq|Hne].
      * rewrite Heq, lookup_insert_eq in Hfresh. done.
      * by rewrite lookup_insert_ne in Hfresh.
Qed.

(** X2: the error for duplicate names reports the first name, in
    registration order, that repeats an earlier one: all names before its
    position are distinct and one of them is the name itself. *)
Theorem duplicate_error_names_first_repeat {env : Externals} (m : Migrator)
    (s : Store) (datadir : string) (mdbx : bool) :
  ¬ NoDup (names m) →
  ∃ dup j,
    result (Apply m s datadir mdbx) = Some (Errorf_duplicate dup)
    ∧ Error (Errorf_duplicate dup)
      = "please provide unique migration name, duplicate: " +:+ dup
    ∧ names m !! j = Some dup
    ∧ dup ∈ take j (names m)
    ∧ NoDup (take j (names m)).
Proof.
  intros Hdup. unfold names in *.
  destruct (uniqueNameCheck ∅ (Migrations m)) as [dup|] eqn:Hcheck.
  2: { apply uniqueNameCheck_None in Hcheck as [? _]. done. }
  rewrite (Apply_duplicate m s datadir mdbx dup Hcheck).
  apply uniqueNameCheck_first in Hcheck as (j & Hj & [[? Hs]|Hin] & Hnd & _).
  { by rewrite lookup_empty in Hs. }
  by exists dup, j.
Qed.

Lemma duplicate_error_names_first_repeat_witness :
  let u := λ name, MkMigration name complete_at_once in
  let m := MkMigrator [u "a"; u "b"; u "c"; u "b"; u "a"] in
  ∃ dup j,
    result (Apply (env := test_externals) m ∅ "" false)
    = Some (Errorf_duplicate dup)
    ∧ Error (Errorf_duplicate dup)
      = "please provide unique migration name, duplicate: " +:+ dup
    ∧ names m !! j = Some dup
    ∧ dup ∈ take j (names m)
    ∧ NoDup (take j (names m)).
Proof.
  intros u m.
  apply (duplicate_error_names_first_repeat (env := test_externals) m ∅ "" false).
  intros Hnd. apply NoDup_cons in Hnd as [Hnotin _]. apply Hnotin.
  vm_compute. do 3 apply list_elem_of_further. apply list_elem_of_here.
Defined.

(** ** The payload of several stages *)

Lemma unwind_key_inj (x y : string) : "unwind_" +:+ x = "unwind_" +:+ y → x = y.
Proof. intros Heq. cbv [String.append] in Heq. by injection Heq. Qed.

Lemma unwind_key_ne_self (x : string) : "unwind_" +:+ x ≠ x.
Proof.
  intros Heq. apply (f_equal String.length) in Heq.
  rewrite string_length_app in Heq. simpl in Heq. lia.
Qed.

Lemma unwind_key_has_prefix (x : string) : String.prefix "unwind_" ("unwind_" +:+ x) = true.
Proof. apply prefix_app. Qed.

Lemma marshal_stage_lookup {env : Externals} (db : Store) (s : gmap string bytes)
    (stage k : string) :
  marshal_stage db s stage !! k =
    if bool_decide (k = "unwind_" +:+ stage
                    ∧ 0 < len (store_get db dbutils.SyncStageUnwind stage))
    then Some (CopyBytes (store_get db dbutils.SyncStageUnwind stage))
    else if bool_decide (k = stage
                         ∧ 0 < len (store_get db dbutils.SyncStageProgress stage))
    then Some (CopyBytes (store_get db dbutils.SyncStageProgress stage))
    else s !! k.
Proof.
  unfold marshal_stage.
  destruct (decide (0 < len (store_get db dbutils.SyncStageUnwind stage))) as [Hu|Hu];
  destruct (decide (0 < len (store_get db dbutils.SyncStageProgress stage))) as [Hp|Hp].
  - rewrite (bool_decide_eq_true_2 _ Hu), (bool_decide_eq_true_2 _ Hp).
    destruct (decide (k = "unwind_" +:+ stage)) as [->|Hk].
    + rewrite lookup_insert_eq. by rewrite bool_decide_eq_true_2.
    + rewrite lookup_insert_ne by done.
      rewrite (bool_decide_eq_false_2 (k = "unwind_" +:+ stage ∧ _))
        by (intros [? _]; done).
      destruct (decide (k = stage)) as [->|Hk'].
      * rewrite lookup_insert_eq. by rewrite bool_decide_eq_true_2.
      * rewrite lookup_insert_ne by done.
        by rewrite bool_decide_eq_false_2 by (intros [? _]; done).
  - rewrite (bool_decide_eq_true_2 _ Hu), (bool_decide_eq_false_2 _ Hp).
    rewrite (bool_decide_eq_false_2 (k = stage ∧ _)) by (intros [_ ?]; done).
    destruct (decide (k = "unwind_" +:+ stage)) as [->|Hk].
    + rewrite lookup_insert_eq. by rewrite bool_decide_eq_true_2.
    + rewrite lookup_insert_ne by done.
      by rewrite bool_decide_eq_false_2 by (intros [? _]; done).
  - rewrite (bool_decide_eq_false_2 _ Hu), (bool_decide_eq_true_2 _ Hp).
    rewrite (bool_decide_eq_false_2 (k = "unwind_" +:+ stage ∧ _))
      by (intros [_ ?]; done).
    destruct (decide (k = stage)) as [->|Hk'].
    + rewrite lookup_insert_eq. by rewrite bool_decide_eq_true_2.
    + rewrite lookup_insert_ne by done.
      by rewrite bool_decide_eq_false_2 by (intros [? _]; done).
  - rewrite (bool_decide_eq_false_2 _ Hu), (bool_decide_eq_false_2 _ Hp).
    rewrite (bool_decide_eq_false_2 (k = "unwind_" +:+ stage ∧ _))
      by (intros [_ ?]; done).
    by rewrite (bool_decide_eq_false_2 (k = stage ∧ _)) by (intros [_ ?]; done).
Qed.

Lemma nonempty_value (v : option bytes) :
  0 < len v ↔ ∃ w, v = Some w ∧ w ≠ [].
Proof.
  destruct v as [[|z w]|]; simpl.
  - split; [lia | by intros (? & [= <-] & ?)].
  - split; [eauto | lia].
  - split; [lia | by intros (? & ? & _)].
Qed.

(** The map built by the loop over the stages. *)
Lemma marshal_loop_lookup {env : Externals} (db : Store) (stages : list string) :
  (∀ x, x ∈ stages → String.prefix "unwind_" x = false) →
  let s := foldl (marshal_stage db) ∅ stages in
  (∀ stage v, stage ∈ stages →
     store_get db dbutils.SyncStageProgress stage = Some v → v ≠ [] →
     s !! stage = Some v)
  ∧ (∀ stage v, stage ∈ stages →
       store_get db dbutils.SyncStageUnwind stage = Some v → v ≠ [] →
       s !! ("unwind_" +:+ stage) = Some v)
  ∧ (∀ k v, s !! k = Some v →
       v ≠ []
       ∧ ((k ∈ stages ∧ store_get db dbutils.SyncStageProgress k = Some v)
          ∨ ∃ stage, stage ∈ stages ∧ k = "unwind_" +:+ stage
                     ∧ store_get db dbutils.SyncStageUnwind stage = Some v)).
Proof.
  induction stages as [|x stages IH] using rev_ind; intros Hnames s; subst s.
  { simpl. split; [|split].
    - by intros ? ? ?%elem_of_nil.
    - by intros ? ? ?%elem_of_nil.
    - intros k v Hk. by rewrite lookup_empty in Hk. }
  rewrite foldl_app. cbn [foldl].
  destruct IH as (IHp & IHu & IHall).
  { intros y Hy. apply Hnames, elem_of_app. by left. }
  assert (String.prefix "unwind_" x = false) as Hx.
  { apply Hnames, elem_of_app. right. apply list_elem_of_here. }
  split; [|split].
  - intros stage v Hin Hp Hv. rewrite marshal_stage_lookup.
    assert (String.prefix "unwind_" stage = false) as Hs by by apply Hnames.
    rewrite bool_decide_eq_false_2.
    2: { intros [Heq _]. apply unwind_key_ne_self with x.
         rewrite Heq in Hs. by rewrite unwind_key_has_prefix in Hs. }
    case_bool_decide as Hcase.
    + destruct Hcase as [<- _]. by rewrite Hp.
    + apply IHp; try done.
      apply elem_of_app in Hin as [?|Hin]; [done|].
      apply list_elem_of_singleton in Hin as ->.
      destruct Hcase. split; [done|]. apply nonempty_value. eauto.
  - intros stage v Hin Hu Hv. rewrite marshal_stage_lookup.
    case_bool_decide as Hcase.
    + destruct Hcase as [->%unwind_key_inj _]. by rewrite Hu.
    + rewrite bool_decide_eq_false_2.
      2: { intros [Heq _]. rewrite <- Heq in Hx.
           by rewrite unwind_key_has_prefix in Hx. }
      apply IHu; try done.
      apply elem_of_app in Hin as [?|Hin]; [done|].
      apply list_elem_of_singleton in Hin as ->.
      destruct Hcase. split; [done|]. apply nonempty_value. eauto.
  - intros k v. rewrite marshal_stage_lookup.
    case_bool_decide as Hcase.
    { destruct Hcase as [-> (w & Hw & Hne)%nonempty_value].
      rewrite Hw. simpl. intros [= <-]. split; [done|]. right.
      exists x. split; [|done]. apply elem_of_app. right. apply list_elem_of_here. }
    case_bool_decide as Hcase'.
    { destruct Hcase' as [-> (w & Hw & Hne)%nonempty_value].
      rewrite Hw. simpl. intros [= <-]. split; [done|]. left.
      split; [|done]. apply elem_of_app. right. apply list_elem_of_here. }
    intros Hk. destruct (IHall k v Hk) as [Hv [[Hin Hp]|(stage & Hin & -> & Hu)]].
    + split; [done|]. left. split; [|done]. apply elem_of_app. by left.
    + split; [done|]. right. exists stage. split; [|done].
      apply elem_of_app. by left.
Qed.

(** X3: over a codec that decodes what it encoded, and stages whose names do
    not begin with "unwind_", the unmarshalled payload has an entry for
    every known stage with a non-empty forward-progress value, an entry
    keyed "unwind_" and the stage name for every known stage with a
    non-empty unwind value, each with the stored bytes, and no other entry. *)
Theorem marshal_roundtrip_all_stages {env : Externals} (db : Store) :
  (∀ s, cbor_Decode (cbor_Encode s) = inl s) →
  (∀ x, x ∈ stages_AllStages → String.prefix "unwind_" x = false) →
  ∃ s,
    UnmarshalMigrationPayload (MarshalMigrationPayload db) = inl s
    ∧ (∀ stage v, stage ∈ stages_AllStages →
         store_get db dbutils.SyncStageProgress stage = Some v → v ≠ [] →
         s !! stage = Some v)
    ∧ (∀ stage v, stage ∈ stages_AllStages →
         store_get db dbutils.SyncStageUnwind stage = Some v → v ≠ [] →
         s !! ("unwind_" +:+ stage) = Some v)
    ∧ (∀ k v, s !! k = Some v →
         v ≠ []
         ∧ ((k ∈ stages_AllStages
             ∧ store_get db dbutils.SyncStageProgress k = Some v)
            ∨ ∃ stage, stage ∈ stages_AllStages ∧ k = "unwind_" +:+ stage
                       ∧ store_get db dbutils.SyncStageUnwind stage = Some v)).
Proof.
  intros Hcodec Hnames.
  exists (foldl (marshal_stage db) ∅ stages_AllStages). split.
  - unfold UnmarshalMigrationPayload, MarshalMigrationPayload. by rewrite Hcodec.
  - by apply marshal_loop_lookup.
Qed.

Lemma marshal_roundtrip_all_stages_witness :
  let db := store_put
              (store_put ∅ dbutils.SyncStageProgress "Execution" [42%Z])
              dbutils.SyncStageUnwind "Bodies" [7%Z] in
  ∃ s,
    UnmarshalMigrationPayload (env := test_externals)
      (MarshalMigrationPayload (env := test_externals) db) = inl s
    ∧ s !! "Execution" = Some [42%Z]
    ∧ s !! "unwind_Bodies" = Some [7%Z].
Proof.
  intros db.
  destruct (marshal_roundtrip_all_stages (env := test_externals) db)
    as (s & Hs & Hp & Hu & _).
  - exact digits_codec_roundtrip.
  - intros x Hx. simpl in Hx.
    do 5 (apply elem_of_cons in Hx as [->|Hx]; [reflexivity|]).
    by apply elem_of_nil in Hx.
  - exists s. split; [exact Hs|]. split.
    + apply Hp; [|reflexivity | discriminate].
      do 3 apply list_elem_of_further. apply list_elem_of_here.
    + apply (Hu "Bodies"); [|reflexivity | discriminate].
      apply list_elem_of_further, list_elem_of_here.
Defined.

(** ** Apply and the listing queries *)

(** X4: when no registered unit is pending, [Apply] on a non-empty list with
    unique names invokes no body and opens no handshake: it returns nil and
    the only change to the database is the Schema Version Record. *)
Theorem Apply_without_pending {env : Externals} (m : Migrator) (s : Store)
    (datadir : string) (mdbx : bool) :
  Migrations m ≠ [] → NoDup (names m) →
  HasPendingMigrations m s = false →
  Apply m s datadir mdbx =
    MkOutcome None
      (store_put s dbutils.DatabaseInfoBucket dbutils.DBSchemaVersionKey
         (version_bytes mdbx))
      [LogUpdated (schema_version mdbx)].
Proof.
  intros Hne Hnd Hpending. apply Apply_all_applied; try done.
  intros v Hv. unfold HasPendingMigrations in Hpending.
  apply bool_decide_eq_false in Hpending.
  destruct (is_applied (AppliedMigrations s false) (Name v)) eqn:Happ; [done|].
  destruct Hpending. rewrite PendingMigrations_filter.
  assert (v ∈ filter (λ v, is_applied (AppliedMigrations s false) (Name v) = false)
                (Migrations m)) as Hin by by apply list_elem_of_filter.
  destruct (filter _ _); [by apply elem_of_nil in Hin | simpl; lia].
Qed.

Lemma Apply_without_pending_witness :
  let m := migrations_with_init in
  let s := store_put (store_put ∅ dbutils.Migrations "one" [1%Z])
             dbutils.Migrations "two" [2%Z] in
  Apply (env := test_externals) m s "" true =
    MkOutcome None
      (store_put s dbutils.DatabaseInfoBucket dbutils.DBSchemaVersionKey
         (version_bytes (env := test_externals) true))
      [LogUpdated (schema_version (env := test_externals) true)].
Proof.
  intros m s. apply (Apply_without_pending (env := test_externals) m s "" true).
  - discriminate.
  - apply NoDup_cons. split; [|apply NoDup_singleton].
    intros Hin. apply list_elem_of_singleton in Hin. discriminate.
  - reflexivity.
Defined.

(** X5: after [Apply] has returned nil over bodies that leave the migrations
    bucket to the engine and names that do not begin with "_progress_", no
    registered unit is pending any more. *)
Theorem Apply_leaves_nothing_pending {env : Externals} (m : Migrator) (s : Store)
    (datadir : string) (mdbx : bool) :
  Forall well_behaved (Migrations m) →
  (∀ x, x ∈ names m → has_prefix x = false) →
  result (Apply m s datadir mdbx) = None →
  PendingMigrations m (database (Apply m s datadir mdbx)) = []
  ∧ HasPendingMigrations m (database (Apply m s datadir mdbx)) = false.
Proof.
  intros Hbodies Hnames Hok.
  destruct (Apply_success_records m s datadir mdbx Hbodies Hnames Hok)
    as [_ Hrecs].
  assert (PendingMigrations m (database (Apply m s datadir mdbx)) = []) as Hnil.
  { rewrite PendingMigrations_filter.
    destruct (filter _ _) as [|v l] eqn:Hf; [done|]. exfalso.
    assert (v ∈ v :: l) as Hv by apply list_elem_of_here.
    rewrite <- Hf in Hv. apply list_elem_of_filter in Hv as [Hpending Hv].
    assert (Name v ∈ names m) as Hin by (apply list_elem_of_fmap; eauto).
    assert (is_applied (AppliedMigrations (database (Apply m s datadir mdbx)) false)
              (Name v) = true) as Happ; [|congruence].
    apply is_applied_spec. split; [by apply Hrecs | by apply Hnames]. }
  split; [done|]. unfold HasPendingMigrations. rewrite Hnil. done.
Qed.

Lemma Apply_leaves_nothing_pending_witness :
  let m := MkMigrator [removeCliqueBucket; MkMigration "one" complete_at_once] in
  let o := Apply (env := test_externals) m ∅ "" false in
  PendingMigrations m (database o) = []
  ∧ HasPendingMigrations m (database o) = false.
Proof.
  intros m. apply (Apply_leaves_nothing_pending (env := test_externals) m ∅ "" false).
  - constructor; [apply removeCliqueBucket_well_behaved|].
    constructor; [|constructor]. intros tmpdir progress; simpl; done.
  - intros x Hx. simpl in Hx.
    apply elem_of_cons in Hx as [->|Hx]; [reflexivity|].
    apply list_elem_of_singleton in Hx as ->. reflexivity.
  - reflexivity.
Defined.

(** ** removeCliqueBucket *)

(** X6: applied on its own to a database that has no record of it,
    [removeCliqueBucket] makes [Apply] return nil; afterwards the clique
    bucket does not exist, whether or not it existed before, the unit has its
    record and no checkpoint, and every bucket other than the clique, the
    migrations and the database-info bucket is as it was. *)
Theorem removeCliqueBucket_applied {env : Externals} (s : Store)
    (datadir : string) (mdbx : bool) :
  ¬ has_record s (Name removeCliqueBucket) →
  let o := Apply (MkMigrator [removeCliqueBucket]) s datadir mdbx in
  result o = None
  ∧ store_exists (database o) dbutils.CliqueBucket = false
  ∧ has_record (database o) (Name removeCliqueBucket)
  ∧ checkpoint_of (database o) (Name removeCliqueBucket) = None
  ∧ ∀ b, b ≠ dbutils.CliqueBucket → b ≠ dbutils.Migrations →
         b ≠ dbutils.DatabaseInfoBucket → database o !! b = s !! b.
Proof.
  intros Hfresh o. subst o.
  assert (is_applied (AppliedMigrations s false) (Name removeCliqueBucket) = false)
    as Happ.
  { destruct (is_applied _ _) eqn:E; [|done].
    apply is_applied_spec in E as [? _]. done. }
  rewrite Apply_unique; [|done|apply NoDup_singleton].
  cbn [Migrations apply_units]. unfold mbind, M_bind, bind.
  rewrite apply_unit_pending by done. cbn zeta.
  cbn [Up Name removeCliqueBucket run].
  unfold mbind, M_bind, bind, tx_read, tx_update. cbn [tx db trace commitFuncCalled].
  assert (∀ t : Store,
            t !! dbutils.CliqueBucket = None →
            (∀ b, b ≠ dbutils.CliqueBucket → t !! b = s !! b) →
            let t' := store_put
                        (store_delete
                           (store_put t dbutils.Migrations "remove_clique_bucket"
                              (MarshalMigrationPayload t))
                           dbutils.Migrations
                           (progress_prefix +:+ "remove_clique_bucket"))
                        dbutils.DatabaseInfoBucket dbutils.DBSchemaVersionKey
                        (version_bytes mdbx) in
            store_exists t' dbutils.CliqueBucket = false
            ∧ has_record t' "remove_clique_bucket"
            ∧ checkpoint_of t' "remove_clique_bucket" = None
            ∧ ∀ b, b ≠ dbutils.CliqueBucket → b ≠ dbutils.Migrations →
                   b ≠ dbutils.DatabaseInfoBucket → t' !! b = s !! b) as Hfinal.
  { intros t Hclique Hrest t'. subst t'. split; [|split; [|split]].
    - unfold store_exists, store_put, store_delete.
      rewrite bool_decide_eq_false, lookup_insert_ne by done.
      rewrite lookup_alter_ne, lookup_insert_ne by done.
      rewrite Hclique. by intros [? ?].
    - apply has_record_put, completion_store_record.
    - unfold checkpoint_of.
      rewrite record_put_ne by (apply checkpoint_key_ne_self || done).
      rewrite store_get_delete. by rewrite bool_decide_eq_true_2.
    - intros b H1 H2 H3. unfold store_put, store_delete.
      rewrite lookup_insert_ne by done.
      rewrite lookup_alter_ne, lookup_insert_ne by done. by apply Hrest. }
  destruct (store_exists s dbutils.CliqueBucket) eqn:Hexists; cbn [negb run];
    unfold mbind, M_bind, bind, tx_update; rewrite commit_handler_completion;
    cbn zeta; cbn [tx db trace commitFuncCalled result database fst snd].
  - split; [done|]. apply Hfinal.
    + unfold store_drop. apply lookup_delete_eq.
    + intros b Hb. unfold store_drop. by rewrite lookup_delete_ne.
  - split; [done|]. apply Hfinal; [|done].
    unfold store_exists in Hexists. apply bool_decide_eq_false in Hexists.
    by apply eq_None_not_Some.
Qed.

Lemma removeCliqueBucket_applied_witness :
  let s := store_put (store_put ∅ dbutils.CliqueBucket "snapshot" [1%Z])
             "headers" "h" [2%Z] in
  let o := Apply (env := test_externals) (MkMigrator [removeCliqueBucket]) s "" false in
  result o = None
  ∧ store_exists (database o) dbutils.CliqueBucket = false
  ∧ has_record (database o) (Name removeCliqueBucket)
  ∧ checkpoint_of (database o) (Name removeCliqueBucket) = None
  ∧ ∀ b, b ≠ dbutils.CliqueBucket → b ≠ dbutils.Migrations →
         b ≠ dbutils.DatabaseInfoBucket → database o !! b = s !! b.
Proof.
  intros s. apply (removeCliqueBucket_applied (env := test_externals) s "" false).
  intros [v Hv]. vm_compute in Hv. discriminate.
Defined.

(** ** Records and completion *)

Lemma completed_app_iff (tr evs : list Event) (name : string) :
  completed (tr ++ evs) name ↔ completed tr name ∨ completed evs name.
Proof.
  unfold completed. split.
  - intros [key [?|?]%elem_of_app]; eauto.
  - intros [[key ?]|[key ?]]; exists key; apply elem_of_app; eauto.
Qed.

Lemma completed_bookkeeping (evs : list Event) (name : string) :
  Forall (λ e, is_unit_event e = false) evs → ¬ completed evs name.
Proof.
  intros Hall [key Hin]. rewrite Forall_forall in Hall.
  by specialize (Hall _ Hin).
Qed.

Lemma completed_completion_events (u name : string) (key : option bytes)
    (payload : bytes) :
  completed [Handshake u key true; Recorded u payload] name ↔ u = name.
Proof.
  split.
  - intros [k Hin]. apply elem_of_cons in Hin as [[= -> _]|Hin]; [done|].
    by apply list_elem_of_singleton in Hin.
  - intros ->. exists key. apply list_elem_of_here.
Qed.

Lemma completed_checkpoint_event (u name : string) (key : option bytes) :
  ¬ completed [Handshake u key false] name.
Proof. intros [k Hin]. by apply list_elem_of_singleton in Hin. Qed.

Lemma engine_step_completion_keeps {env : Externals} (x : string)
    (st st' : State) :
  has_prefix x = false →
  engine_step same_tracking st st' →
  completion_keeps_record x st → completion_keeps_record x st'.
Proof.
  unfold completion_keeps_record.
  intros Hx [name a b [a' s' Hw|a' key isDone]|a called evs Hevs] Hinv; simpl.
  - intros Hdone. destruct (Hinv Hdone) as [Hdb Htx]. split; [done|].
    unfold has_record. by rewrite (record_same_tracking _ _ _ Hw).
  - destruct isDone.
    + rewrite commit_handler_completion. simpl.
      rewrite completed_app_iff, completed_completion_events.
      destruct (decide (name = x)) as [->|Hne].
      * intros _. split; apply completion_store_record.
      * intros [Hdone|?]; [|done]. destruct (Hinv Hdone) as [_ Htx].
        split; by apply completion_store_keeps.
    + rewrite commit_handler_checkpoint. simpl. rewrite completed_app_iff.
      intros [Hdone|Hdone]; [|by apply completed_checkpoint_event in Hdone].
      destruct (Hinv Hdone) as [_ Htx].
      destruct key; [split; by apply has_record_put | done].
  - rewrite completed_app_iff.
    intros [Hdone|Hdone]; [by apply Hinv|].
    by apply completed_bookkeeping in Hdone.
Qed.

Lemma engine_step_keeps_payload {env : Externals} (x : string) (payload : bytes)
    (st st' : State) :
  has_prefix x = false →
  engine_step same_tracking st st' →
  record_keeps_payload x payload st → record_keeps_payload x payload st'.
Proof.
  unfold record_keeps_payload.
  intros Hx [name a b [a' s' Hw|a' key isDone]|a called evs _] Hinv; simpl.
  - by rewrite (record_same_tracking _ _ _ Hw).
  - destruct isDone.
    + rewrite commit_handler_completion. simpl.
      destruct (decide (name = x)) as [->|Hne].
      * left. exists key. apply elem_of_app. right. apply list_elem_of_here.
      * destruct Hinv as [Hdone|[_ Htx]]; [left; by apply completed_app|].
        right. by rewrite completion_store_other.
    + rewrite commit_handler_checkpoint. simpl.
      destruct Hinv as [Hdone|[_ Htx]]; [left; by apply completed_app|].
      right. destruct key; [|done].
      by rewrite record_put_ne by by apply checkpoint_key_ne.
  - destruct Hinv as [Hdone|?]; [left; by apply completed_app | by right].
Qed.

(** The state the loop of [Apply] ends in, for bodies that leave the
    migrations bucket to the engine. *)
Lemma Apply_invariant {env : Externals} (P : State → Prop) (m : Migrator)
    (s : Store) (datadir : string) (mdbx : bool) :
  Forall well_behaved (Migrations m) →
  (∀ a b, engine_step same_tracking a b → P a → P b) →
  P (MkState s s false []) →
  P (apply_units datadir (AppliedMigrations s false) (Migrations m)
       (MkState s s false [])).2.
Proof.
  intros Hbodies Hstep Hinit. rewrite Forall_forall in Hbodies.
  apply (rtc_invariant (engine_step same_tracking) P (MkState s s false []));
    [done| |done].
  apply apply_units_steps. intros v ? ? ? Hv. apply run_steps_off.
  by apply Hbodies.
Qed.

Lemma Apply_invariant_any {env : Externals} (P : State → Prop) (m : Migrator)
    (s : Store) (datadir : string) (mdbx : bool) :
  (∀ a b, engine_step any_write a b → P a → P b) →
  P (MkState s s false []) →
  P (apply_units datadir (AppliedMigrations s false) (Migrations m)
       (MkState s s false [])).2.
Proof.
  intros Hstep Hinit.
  apply (rtc_invariant (engine_step any_write) P (MkState s s false []));
    [done| |done].
  apply apply_units_steps. intros v ? ? ? Hv. apply run_steps_any.
Qed.

Lemma completed_loop_events (tr : list Event) (r : option error) (v : Version)
    (name : string) :
  completed (tr ++ match r with None => [LogUpdated v] | Some _ => [] end) name
  ↔ completed tr name.
Proof.
  rewrite completed_app_iff. split; [|by left].
  intros [?|[key Hin]]; [done|]. destruct r.
  - by apply elem_of_nil in Hin.
  - by apply list_elem_of_singleton in Hin.
Qed.

(** X7: for bodies that leave the migrations bucket to the engine and a name
    that does not begin with "_progress_" and has no record when [Apply]
    starts, the database [Apply] leaves behind, whether it returns nil or
    an error, holds a record keyed by the name exactly when the unit of that
    name made a completion handshake during the run. *)
Theorem record_iff_completed {env : Externals} (m : Migrator) (s : Store)
    (datadir : string) (mdbx : bool) (name : string) :
  Forall well_behaved (Migrations m) →
  has_prefix name = false →
  ¬ has_record s name →
  has_record (database (Apply m s datadir mdbx)) name
  ↔ completed (events (Apply m s datadir mdbx)) name.
Proof.
  intros Hbodies Hname Hfresh.
  destruct (Apply_cases m s datadir mdbx)
    as [[_ ->]|[(dup & _ & ->)|(_ & _ & st & tr & Hrun & Htr & _ & Hout)]]; simpl.
  1, 2: split; [done | by intros [key ?%elem_of_nil]].
  pose proof (Apply_invariant (record_needs_completion name) m s datadir mdbx
                Hbodies (λ a b, engine_step_needs_completion name a b Hname)
                (or_intror (conj Hfresh Hfresh))) as Hneeds.
  pose proof (Apply_invariant (completion_keeps_record name) m s datadir mdbx
                Hbodies (λ a b, engine_step_completion_keeps name a b Hname))
    as Hkeeps.
  rewrite Hrun in Hneeds, Hkeeps. simpl in Hneeds, Hkeeps.
  unfold completion_keeps_record in Hkeeps.
  unfold record_needs_completion in Hneeds. rewrite Htr in Hneeds, Hkeeps.
  assert (completed [] name → has_record s name ∧ has_record s name) as Hinit.
  { by intros [key ?%elem_of_nil]. }
  specialize (Hkeeps Hinit).
  assert (completed (events (Apply m s datadir mdbx)) name ↔ completed tr name)
    as ->.
  { destruct (result _); destruct Hout as [_ ->]; [done|].
    apply (completed_loop_events tr None). }
  destruct (result _); destruct Hout as [-> _].
  - split; [|by intros [? _]%Hkeeps].
    intros Hrec. by destruct Hneeds as [?|[? _]].
  - split.
    + intros Hrec. destruct Hneeds as [?|[_ Htx]]; [done|]. destruct Htx.
      unfold has_record in *. rewrite store_get_put in Hrec.
      by rewrite bool_decide_eq_false_2 in Hrec by (intros [? _]; done).
    + intros [_ Htx]%Hkeeps. by apply has_record_put.
Qed.

(** The first unit fails after a checkpoint, the second is never reached. *)
Lemma record_iff_completed_witness :
  let fails := λ (_ : string) (_ : option bytes),
    OnLoadCommit (Some [5%Z]) false (λ _, Return (Some (MkError None "boom"))) in
  let m := MkMigrator [MkMigration "one" complete_at_once;
                       MkMigration "two" fails;
                       MkMigration "three" complete_at_once] in
  let o := Apply (env := test_externals) m ∅ "" false in
  has_record (database o) "one" ∧ ¬ has_record (database o) "two".
Proof.
  intros fails m o.
  assert (Forall well_behaved (Migrations m)) as Hbodies.
  { repeat (constructor; [intros tmpdir progress; simpl; done|]). constructor. }
  assert (∀ name, ¬ has_record ∅ name) as Hfresh.
  { intros name [v Hv]. unfold store_get in Hv. by rewrite lookup_empty in Hv. }
  split.
  - apply (record_iff_completed (env := test_externals) m ∅ "" false "one");
      [exact Hbodies | reflexivity | apply Hfresh|].
    exists None. vm_compute. apply list_elem_of_further, list_elem_of_here.
  - intros Hrec.
    apply (record_iff_completed (env := test_externals) m ∅ "" false "two")
      in Hrec as [key Hkey]; [|exact Hbodies | reflexivity | apply Hfresh].
    vm_compute in Hkey.
    repeat (apply elem_of_cons in Hkey as [?|Hkey]; [discriminate|]).
    by apply elem_of_nil in Hkey.
Defined.

(** X8: a record that exists when [Apply] starts, under a name that does not
    begin with "_progress_", is in the database [Apply] leaves behind with
    the same payload, whatever [Apply] returns, when the bodies leave the
    migrations bucket to the engine. *)
Theorem existing_record_untouched {env : Externals} (m : Migrator) (s : Store)
    (datadir : string) (mdbx : bool) (name : string) (payload : bytes) :
  Forall well_behaved (Migrations m) →
  has_prefix name = false →
  store_get s dbutils.Migrations name = Some payload →
  store_get (database (Apply m s datadir mdbx)) dbutils.Migrations name
  = Some payload.
Proof.
  intros Hbodies Hname Hrec.
  assert (is_applied (AppliedMigrations s false) name = true) as Happ.
  { apply is_applied_spec. split; [by eexists | done]. }
  assert (¬ completed (events (Apply m s datadir mdbx)) name) as Hsilent.
  { intros [key Hkey].
    by eapply (applied_unit_silent m s datadir mdbx name). }
  destruct (Apply_cases m s datadir mdbx)
    as [[_ ->]|[(dup & _ & ->)|(_ & _ & st & tr & Hrun & Htr & _ & Hout)]];
    [done..|].
  pose proof (Apply_invariant (record_keeps_payload name payload) m s datadir mdbx
                Hbodies (λ a b, engine_step_keeps_payload name payload a b Hname)
                (or_intror (conj Hrec Hrec))) as Hkeeps.
  rewrite Hrun in Hkeeps. simpl in Hkeeps. unfold record_keeps_payload in Hkeeps.
  rewrite Htr in Hkeeps.
  assert (¬ completed tr name) as Hsilent'.
  { intros Hdone. apply Hsilent.
    destruct (result _); destruct Hout as [_ ->]; [done|].
    by apply (completed_loop_events tr None). }
  destruct Hkeeps as [?|[Hdb Htx]]; [done|].
  destruct (result _); destruct Hout as [-> _]; [done|].
  rewrite store_get_put.
  by rewrite bool_decide_eq_false_2 by (intros [? _]; done).
Qed.

(** TestApplyWithoutInit: the record [{1}] of "one" is still [{1}]. *)
Lemma existing_record_untouched_witness :
  let fails := λ (_ : string) (_ : option bytes),
    Return (Some (MkError None "shouldn't been executed")) in
  let m := MkMigrator [MkMigration "one" fails; MkMigration "two" complete_at_once] in
  let s := store_put ∅ dbutils.Migrations "one" [1%Z] in
  store_get (database (Apply (env := test_externals) m s "" false))
    dbutils.Migrations "one" = Some [1%Z].
Proof.
  intros fails m s.
  apply (existing_record_untouched (env := test_externals) m s "" false "one").
  - repeat (constructor; [intros tmpdir progress; simpl; done|]). constructor.
  - reflexivity.
  - reflexivity.
Defined.

(** ** Rolling back *)

Lemma handshakes_app (tr evs : list Event) :
  handshakes (tr ++ evs) = handshakes tr ++ handshakes evs.
Proof. unfold handshakes. apply omap_app. Qed.

Lemma engine_step_nothing_committed {env : Externals} (s : Store)
    (st st' : State) :
  engine_step any_write st st' →
  nothing_committed_yet s st → nothing_committed_yet s st'.
Proof.
  unfold nothing_committed_yet.
  intros [name a b [a' s' Hw|a' key isDone]|a called evs Hevs] Hinv; simpl.
  - done.
  - destruct isDone.
    + rewrite commit_handler_completion. simpl. rewrite handshakes_app.
      intros Hnil. apply app_eq_nil in Hnil as [_ Hnil]. done.
    + rewrite commit_handler_checkpoint. simpl. rewrite handshakes_app.
      intros Hnil. apply app_eq_nil in Hnil as [_ Hnil]. done.
  - rewrite handshakes_app, (handshakes_bookkeeping _ Hevs), app_nil_r. done.
Qed.

(** X9: when [Apply] returns an error and no body has invoked the commit
    handler, the database is exactly what it was before the call, whatever
    the bodies wrote through the transaction. *)
Theorem failure_without_handshake_rolls_back {env : Externals} (m : Migrator)
    (s : Store) (datadir : string) (mdbx : bool) (err : error) :
  result (Apply m s datadir mdbx) = Some err →
  handshakes (events (Apply m s datadir mdbx)) = [] →
  database (Apply m s datadir mdbx) = s.
Proof.
  intros Herr Hnone.
  destruct (Apply_cases m s datadir mdbx)
    as [[_ ->]|[(dup & _ & ->)|(_ & _ & st & tr & Hrun & Htr & _ & Hout)]];
    [done..|].
  rewrite Herr in Hout. destruct Hout as [Hdb Hev]. rewrite Hdb.
  pose proof (Apply_invariant_any (nothing_committed_yet s) m s datadir mdbx
                (engine_step_nothing_committed s) (λ _, eq_refl)) as Hinv.
  rewrite Hrun in Hinv. simpl in Hinv. apply Hinv. by rewrite Htr, <- Hev.
Qed.

Lemma failure_without_handshake_rolls_back_witness :
  let writes := λ (_ : string) (_ : option bytes),
    Put "headers" "h" [1%Z] (DropBuckets "bodies" (Return (Some (MkError None "boom")))) in
  let s := store_put ∅ "bodies" "b" [2%Z] in
  database (Apply (env := test_externals)
              (MkMigrator [MkMigration "one" writes]) s "" false) = s.
Proof.
  intros writes s.
  apply (failure_without_handshake_rolls_back (env := test_externals)
           (MkMigrator [MkMigration "one" writes]) s "" false (MkError None "boom")).
  - reflexivity.
  - reflexivity.
Defined.

(** ** Checkpoints *)

Lemma own_handshakes_app (name : string) (tr evs : list Event) :
  own_handshakes name (tr ++ evs)
  = own_handshakes name tr ++ own_handshakes name evs.
Proof. unfold own_handshakes. apply omap_app. Qed.

Lemma own_handshakes_bookkeeping (name : string) (evs : list Event) :
  Forall (λ e, is_unit_event e = false) evs → own_handshakes name evs = [].
Proof.
  induction 1 as [|e evs He _ IH]; [done|].
  unfold own_handshakes in *. destruct e; simpl in *; done.
Qed.

Lemma checkpoint_key_inj (x y : string) :
  progress_prefix +:+ x = progress_prefix +:+ y → x = y.
Proof. intros Heq. cbv [String.append progress_prefix] in Heq. by injection Heq. Qed.

Lemma checkpoint_of_completion (t : Store) (u name : string) (payload : bytes) :
  checkpoint_of (store_delete (store_put t dbutils.Migrations u payload)
                   dbutils.Migrations (progress_prefix +:+ u)) name
  = if bool_decide (u = name) then None
    else if bool_decide (u = progress_prefix +:+ name) then Some payload
    else checkpoint_of t name.
Proof.
  unfold checkpoint_of. rewrite store_get_delete.
  destruct (decide (u = name)) as [->|Hne].
  - by rewrite !bool_decide_eq_true_2.
  - rewrite (bool_decide_eq_false_2 (u = name)) by done.
    rewrite bool_decide_eq_false_2
      by (intros [_ Heq%checkpoint_key_inj]; done).
    rewrite store_get_put. case_bool_decide as Hcase.
    + destruct Hcase as [_ ->]. by rewrite bool_decide_eq_true_2.
    + rewrite bool_decide_eq_false_2; [done|]. intros ->. by destruct Hcase.
Qed.

Lemma checkpoint_of_checkpoint (t : Store) (u name : string) (k : bytes) :
  checkpoint_of (store_put t dbutils.Migrations (progress_prefix +:+ u) k) name
  = if bool_decide (u = name) then Some k else checkpoint_of t name.
Proof.
  unfold checkpoint_of. rewrite store_get_put.
  destruct (decide (u = name)) as [->|Hne].
  - by rewrite !bool_decide_eq_true_2.
  - rewrite (bool_decide_eq_false_2 (u = name)) by done.
    by rewrite bool_decide_eq_false_2
      by (intros [_ Heq%checkpoint_key_inj]; done).
Qed.

Lemma engine_step_checkpoint {env : Externals} (name : string) (st st' : State) :
  engine_step same_tracking st st' →
  checkpoint_follows_handshake name st → checkpoint_follows_handshake name st'.
Proof.
  unfold checkpoint_follows_handshake.
  intros [u a b [a' s' Hw|a' key isDone]|a called evs Hevs] Hinv; simpl.
  - destruct Hinv as [?|Hinv]; [by left | right].
    intros key0 d0 Hlast. destruct (Hinv key0 d0 Hlast) as [H1 H2].
    unfold checkpoint_of in *. rewrite (record_same_tracking _ _ _ Hw). done.
  - destruct isDone.
    + rewrite commit_handler_completion. simpl.
      destruct Hinv as [Hdone|Hinv]; [left; by apply completed_app|].
      destruct (decide (u = progress_prefix +:+ name)) as [->|Hother].
      { left. exists key. apply elem_of_app. right. apply list_elem_of_here. }
      right. intros key0 d0. rewrite own_handshakes_app.
      rewrite checkpoint_of_completion.
      rewrite (bool_decide_eq_false_2 (u = progress_prefix +:+ name)) by done.
      unfold own_handshakes at 2. simpl.
      destruct (decide (u = name)) as [->|Hne].
      * rewrite !bool_decide_eq_true_2 by done. simpl. rewrite last_snoc.
        intros [= <- <-]. split; [done | by intros k ?].
      * rewrite !bool_decide_eq_false_2 by done. simpl. rewrite app_nil_r.
        intros Hlast. destruct (Hinv key0 d0 Hlast) as [H1 H2]. split.
        -- intros Hd. by destruct (H1 Hd).
        -- intros k Hd Hk. by destruct (H2 k Hd Hk).
    + rewrite commit_handler_checkpoint. simpl.
      destruct Hinv as [Hdone|Hinv]; [left; by apply completed_app|].
      right. intros key0 d0. rewrite own_handshakes_app.
      unfold own_handshakes at 2. simpl.
      destruct (decide (u = name)) as [->|Hne].
      * rewrite bool_decide_eq_true_2 by done. simpl. rewrite last_snoc.
        intros [= <- <-]. split; [done|]. intros k _ ->.
        rewrite checkpoint_of_checkpoint. by rewrite bool_decide_eq_true_2.
      * rewrite bool_decide_eq_false_2 by done. simpl. rewrite app_nil_r.
        intros Hlast. destruct (Hinv key0 d0 Hlast) as [H1 H2].
        assert (checkpoint_of
                  match key with
                  | Some key => store_put (tx a') dbutils.Migrations
                                  (progress_prefix +:+ u) key
                  | None => tx a'
                  end name = checkpoint_of (tx a') name) as ->.
        { destruct key; [|done]. rewrite checkpoint_of_checkpoint.
          by rewrite bool_decide_eq_false_2. }
        split.
        -- intros Hd. by destruct (H1 Hd).
        -- intros k Hd Hk. by destruct (H2 k Hd Hk).
  - destruct Hinv as [Hdone|Hinv]; [left; by apply completed_app|].
    right. intros key0 d0.
    rewrite own_handshakes_app, (own_handshakes_bookkeeping _ _ Hevs), app_nil_r.
    apply Hinv.
Qed.

(** What the last handshake of a unit does to its checkpoint is what the
    database shows after [Apply]. *)
Lemma Apply_checkpoint {env : Externals} (m : Migrator) (s : Store)
    (datadir : string) (mdbx : bool) (name : string) (key : option bytes)
    (isDone : bool) :
  Forall well_behaved (Migrations m) →
  progress_prefix +:+ name ∉ names m →
  last (own_handshakes name (events (Apply m s datadir mdbx)))
  = Some (key, isDone) →
  (isDone = true → checkpoint_of (database (Apply m s datadir mdbx)) name = None)
  ∧ (∀ k, isDone = false → key = Some k →
          checkpoint_of (database (Apply m s datadir mdbx)) name = Some k).
Proof.
  intros Hbodies Hnames.
  destruct (Apply_cases m s datadir mdbx)
    as [[_ ->]|[(dup & _ & ->)|(_ & _ & st & tr & Hrun & Htr & Hloop & Hout)]];
    [done..|].
  pose proof (Apply_invariant (checkpoint_follows_handshake name) m s datadir mdbx
                Hbodies (engine_step_checkpoint name)) as Hinv.
  rewrite Hrun in Hinv. simpl in Hinv.
  destruct Hinv as [[k Hk]|Hinv].
  { right. by intros key0 d0. }
  { rewrite Htr in Hk.
    destruct (loop_trace_event _ _ _ _ _ Hloop Hk) as (v & Hv & _ & [= Hname]).
    destruct Hnames. unfold names. apply list_elem_of_fmap. eauto. }
  rewrite Htr in Hinv.
  assert (own_handshakes name (events (Apply m s datadir mdbx))
          = own_handshakes name tr) as ->.
  { destruct (result _); destruct Hout as [_ ->]; [done|].
    rewrite own_handshakes_app. apply app_nil_r. }
  intros Hlast. destruct (Hinv key isDone Hlast) as [H1 H2].
  assert (checkpoint_of (database (Apply m s datadir mdbx)) name
          = checkpoint_of (tx st) name
          ∨ checkpoint_of (database (Apply m s datadir mdbx)) name
            = checkpoint_of (db st) name) as Hdb.
  { destruct (result _); destruct Hout as [-> _]; [by right | left].
    unfold checkpoint_of. rewrite store_get_put.
    by rewrite bool_decide_eq_false_2 by (intros [? _]; done). }
  split.
  - intros Hd. destruct (H1 Hd) as [? ?]. destruct Hdb as [->| ->]; done.
  - intros k Hd Hk. destruct (H2 k Hd Hk) as [? ?].
    destruct Hdb as [->| ->]; done.
Qed.

(** X10: when the last invocation of the commit handler by a unit is a
    checkpoint invocation with a key, the database [Apply] leaves behind
    holds that key as the unit's Progress Checkpoint Record, whether [Apply]
    fails or not, for bodies that leave the migrations bucket to the engine
    and when no registered unit is called "_progress_" followed by the
    unit's name. *)
Theorem checkpoint_is_saved {env : Externals} (m : Migrator) (s : Store)
    (datadir : string) (mdbx : bool) (name : string) (k : bytes) :
  Forall well_behaved (Migrations m) →
  progress_prefix +:+ name ∉ names m →
  last (own_handshakes name (events (Apply m s datadir mdbx)))
  = Some (Some k, false) →
  checkpoint_of (database (Apply m s datadir mdbx)) name = Some k.
Proof.
  intros Hbodies Hnames Hlast.
  by apply (Apply_checkpoint m s datadir mdbx name (Some k) false).
Qed.

Lemma checkpoint_is_saved_witness :
  let interrupted := λ (_ : string) (_ : option bytes),
    OnLoadCommit (Some [1%Z]) false (λ _,
      OnLoadCommit (Some [2%Z]) false (λ _,
        Return (Some (MkError None "interrupted")))) in
  let m := MkMigrator [MkMigration "one" complete_at_once;
                       MkMigration "two" interrupted] in
  checkpoint_of (database (Apply (env := test_externals) m ∅ "" false)) "two"
  = Some [2%Z].
Proof.
  intros interrupted m.
  apply (checkpoint_is_saved (env := test_externals) m ∅ "" false "two" [2%Z]).
  - repeat (constructor; [intros tmpdir progress; simpl; done|]). constructor.
  - intros Hin. simpl in Hin.
    apply elem_of_cons in Hin as [?|Hin]; [discriminate|].
    apply list_elem_of_singleton in Hin. discriminate.
  - reflexivity.
Defined.

(** X11: when the last invocation of the commit handler by a unit is a
    completion invocation, the database [Apply] leaves behind holds no
    Progress Checkpoint Record of that unit, under the same conditions. *)
Theorem completion_clears_checkpoint {env : Externals} (m : Migrator) (s : Store)
    (datadir : string) (mdbx : bool) (name : string) (key : option bytes) :
  Forall well_behaved (Migrations m) →
  progress_prefix +:+ name ∉ names m →
  last (own_handshakes name (events (Apply m s datadir mdbx)))
  = Some (key, true) →
  checkpoint_of (database (Apply m s datadir mdbx)) name = None.
Proof.
  intros Hbodies Hnames Hlast.
  by apply (Apply_checkpoint m s datadir mdbx name key true).
Qed.

(** A run that resumes from a checkpoint left by an earlier attempt. *)
Lemma completion_clears_checkpoint_witness :
  let resumes := λ (_ : string) (progress : option bytes),
    OnLoadCommit (Some [9%Z]) false (λ _, OnLoadCommit None true Return) in
  let m := MkMigrator [MkMigration "one" resumes; MkMigration "two" complete_at_once] in
  let s := store_put ∅ dbutils.Migrations "_progress_one" [3%Z] in
  checkpoint_of s "one" = Some [3%Z]
  ∧ checkpoint_of (database (Apply (env := test_externals) m s "" false)) "one"
    = None.
Proof.
  intros resumes m s. split; [reflexivity|].
  apply (completion_clears_checkpoint (env := test_externals) m s "" false "one" None).
  - repeat (constructor; [intros tmpdir progress; simpl; done|]). constructor.
  - intros Hin. simpl in Hin.
    apply elem_of_cons in Hin as [?|Hin]; [discriminate|].
    apply list_elem_of_singleton in Hin. discriminate.
  - reflexivity.
Defined.

(** ** Resuming *)

Lemma apply_units_skip_applied {env : Externals} (datadir : string)
    (applied : gmap string bytes) (pre rest : list Migration) (st : State) :
  (∀ u, u ∈ pre → is_applied applied (Name u) = true) →
  apply_units datadir applied (pre ++ rest) st
  = apply_units datadir applied rest st.
Proof.
  induction pre as [|u pre IH]; intros Hpre; [done|].
  cbn [app apply_units]. unfold mbind, M_bind, bind.
  rewrite apply_unit_applied by apply Hpre, list_elem_of_here.
  apply IH. intros w Hw. by apply Hpre, list_elem_of_further.
Qed.

(** X12: the first pending unit of the list is invoked with its Progress
    Checkpoint Record in the database as the progress argument (nil when
    there is none): fixing its body to that argument changes nothing in what
    [Apply] returns, commits and logs. *)
Theorem first_pending_unit_resumes {env : Externals} (pre post : list Migration)
    (v : Migration) (s : Store) (datadir : string) (mdbx : bool) :
  (∀ u, u ∈ pre → Name u ∈ applied_set s) →
  Name v ∉ applied_set s →
  Apply (MkMigrator (pre ++ v :: post)) s datadir mdbx
  = Apply (MkMigrator (pre ++ with_progress v (checkpoint_of s (Name v)) :: post))
      s datadir mdbx.
Proof.
  intros Hpre Hv.
  assert (∀ u, u ∈ pre → is_applied (AppliedMigrations s false) (Name u) = true)
    as Hpre'.
  { intros u Hu. apply is_applied_spec, elem_of_applied_set. by apply Hpre. }
  assert (is_applied (AppliedMigrations s false) (Name v) = false) as Hv'.
  { destruct (is_applied _ _) eqn:E; [|done].
    apply is_applied_spec, elem_of_applied_set in E. done. }
  unfold Apply. cbn [Migrations].
  rewrite !length_app. cbn [length].
  rewrite (uniqueNameCheck_names ∅ (pre ++ v :: post)
             (pre ++ with_progress v (checkpoint_of s (Name v)) :: post))
    by by rewrite !fmap_app.
  rewrite !apply_units_skip_applied by done.
  cbn [apply_units]. unfold mbind, M_bind, bind.
  rewrite (apply_unit_pending datadir _ v) by done.
  rewrite (apply_unit_pending datadir _ (with_progress v _)) by done.
  done.
Qed.

(** A first run is interrupted after a checkpoint; in the second run the
    body, which completes only when it is handed that checkpoint, completes. *)
Lemma first_pending_unit_resumes_witness :
  let body := λ (_ : string) (progress : option bytes),
    match progress with
    | Some _ => OnLoadCommit None true Return
    | None => OnLoadCommit (Some [4%Z]) false (λ _,
                Return (Some (MkError None "interrupted")))
    end in
  let one := MkMigration "one" complete_at_once in
  let two := MkMigration "two" body in
  let o1 := Apply (env := test_externals) (MkMigrator [one; two]) ∅ "" false in
  checkpoint_of (database o1) "two" = Some [4%Z]
  ∧ Apply (env := test_externals) (MkMigrator [one; two]) (database o1) "" false
    = Apply (env := test_externals)
        (MkMigrator [one; with_progress two (Some [4%Z])]) (database o1) "" false.
Proof.
  intros body one two o1. split; [vm_compute; reflexivity|].
  apply (first_pending_unit_resumes (env := test_externals) [one] [] two
           (database o1) "" false).
  - intros u Hu. apply list_elem_of_singleton in Hu as ->.
    apply elem_of_applied_set.
    split; [eexists; vm_compute; reflexivity | reflexivity].
  - intros [[v Hv] _]%elem_of_applied_set. vm_compute in Hv. discriminate.
Defined.

(** ** The errors of Apply *)

Lemma loop_trace_error (applied : gmap string bytes) (ms : list Migration)
    (r : option error) (tr : list Event) (err : error) :
  NoDup (Name <$> ms) →
  loop_trace applied ms r tr → r = Some err →
  ∃ tr0 name,
    tr = tr0 ++ [Returned name (Some err)]
    ∨ (tr = tr0 ++ [Returned name None]
       ∧ err = Errorf_not_called name
       ∧ ∀ key, Handshake name key true ∉ tr).
Proof.
  intros Hnd Hloop. revert Hnd.
  induction Hloop as [|v ms r tr Happ Hloop IH|v ms r tr evs Happ Hevs Hdone Hloop IH
                      |v ms evs err' Happ Hevs|v ms evs Happ Hevs Hnone];
    intros Hnd Hr.
  - done.
  - apply IH; [|done]. by apply NoDup_cons in Hnd as [_ ?].
  - apply NoDup_cons in Hnd as [Hnotin Hnd].
    destruct (IH Hnd Hr) as (tr0 & name & [->|(-> & -> & Hno)]).
    + exists (LogInfo "Apply migration" (Name v) :: evs
              ++ Returned (Name v) None
              :: LogInfo "Applied migration" (Name v) :: tr0), name.
      left. simpl. rewrite <- app_assoc. done.
    + exists (LogInfo "Apply migration" (Name v) :: evs
              ++ Returned (Name v) None
              :: LogInfo "Applied migration" (Name v) :: tr0), name.
      right. split; [simpl; by rewrite <- app_assoc|]. split; [done|].
      intros key Hkey.
      apply elem_of_cons in Hkey as [?|Hkey]; [done|].
      apply elem_of_app in Hkey as [Hkey|Hkey].
      * destruct (unit_event_inv _ _ _ (proj1 Hevs) Hkey)
          as [(? & ? & [= Hname _ _])|(? & ?)]; [|done].
        assert (Returned name None ∈ tr0 ++ [Returned name None]) as Hret.
        { apply elem_of_app. right. apply list_elem_of_here. }
        destruct (loop_trace_event _ _ _ _ _ Hloop Hret) as (w & Hw & _ & [= Hw']).
        apply Hnotin. rewrite <- Hname, Hw'. apply list_elem_of_fmap. eauto.
      * apply elem_of_cons in Hkey as [?|Hkey]; [done|].
        apply elem_of_cons in Hkey as [?|Hkey]; [done|].
        by apply (Hno key).
  - injection Hr as ->.
    exists (LogInfo "Apply migration" (Name v) :: evs), (Name v). by left.
  - injection Hr as <-.
    exists (LogInfo "Apply migration" (Name v) :: evs), (Name v).
    right. split; [done|]. split; [done|]. intros key Hkey.
    apply elem_of_cons in Hkey as [?|Hkey]; [done|].
    apply elem_of_app in Hkey as [Hkey|Hkey].
    + by apply unit_events_no_completion in Hkey.
    + by apply list_elem_of_singleton in Hkey.
Qed.

(** X13: on a store whose operations report no error (no read, write,
    begin or commit fails and the payload encodes), an error returned by
    [Apply] is of one of three kinds. It is the duplicate-name error, and
    then nothing ran and the database is as it was; or it is the error a
    unit body returned, and that return is the last event of the run; or it
    is the CommitNotCalled error naming a unit whose body returned nil, as
    the last event of the run, without a completion handshake. In no case is
    the schema version logged as updated. The errors that [Apply] hands on
    from the store itself are outside this statement. *)
Theorem Apply_error_kinds {env : Externals} (m : Migrator) (s : Store)
    (datadir : string) (mdbx : bool) (err : error) :
  result (Apply m s datadir mdbx) = Some err →
  ((∃ dup, err = Errorf_duplicate dup ∧ ¬ NoDup (names m)
           ∧ events (Apply m s datadir mdbx) = []
           ∧ database (Apply m s datadir mdbx) = s)
   ∨ (∃ tr name, events (Apply m s datadir mdbx) = tr ++ [Returned name (Some err)])
   ∨ (∃ tr name, events (Apply m s datadir mdbx) = tr ++ [Returned name None]
                 ∧ err = Errorf_not_called name
                 ∧ ¬ completed (events (Apply m s datadir mdbx)) name))
  ∧ ∀ v, LogUpdated v ∉ events (Apply m s datadir mdbx).
Proof.
  intros Herr.
  destruct (Apply_cases m s datadir mdbx)
    as [[_ Hout]|[(dup & Hdup & Hout)|(_ & Hnd & st & tr & _ & _ & Hloop & Hout)]].
  - rewrite Hout in Herr. done.
  - rewrite Hout in Herr |- *. injection Herr as <-. simpl. split.
    + left. by exists dup.
    + intros v Hin. by apply elem_of_nil in Hin.
  - rewrite Herr in Hout, Hloop. destruct Hout as [_ ->]. split.
    + right.
      destruct (loop_trace_error _ _ _ _ err Hnd Hloop eq_refl)
        as (tr0 & name & [->|(-> & -> & Hno)]).
      * left. by exists tr0, name.
      * right. exists tr0, name. split; [done|]. split; [done|].
        intros [key Hkey]. by apply (Hno key).
    + intros v Hin.
      by destruct (loop_trace_event _ _ _ _ _ Hloop Hin) as (? & _ & _ & ?).
Qed.

Lemma Apply_error_kinds_witness :
  let boom := MkError None "boom" in
  let fails := λ (_ : string) (_ : option bytes), Return (Some boom) in
  let m := MkMigrator [MkMigration "one" complete_at_once;
                       MkMigration "two" fails;
                       MkMigration "three" complete_at_once] in
  let o := Apply (env := test_externals) m ∅ "" false in
  ((∃ dup, boom = Errorf_duplicate dup ∧ ¬ NoDup (names m)
           ∧ events o = [] ∧ database o = ∅)
   ∨ (∃ tr name, events o = tr ++ [Returned name (Some boom)])
   ∨ (∃ tr name, events o = tr ++ [Returned name None]
                 ∧ boom = Errorf_not_called name
                 ∧ ¬ completed (events o) name))
  ∧ ∀ v, LogUpdated v ∉ events o.
Proof.
  intros boom fails m.
  apply (Apply_error_kinds (env := test_externals) m ∅ "" false boom).
  reflexivity.
Defined.

(** * Entries of the migrations bucket after a run *)

Lemma engine_step_entry_kept {env : Externals} (name : string)
    (entry : option bytes) (st st' : State) :
  engine_step same_tracking st st' →
  entry_kept name entry st → entry_kept name entry st'.
Proof.
  unfold entry_kept.
  intros [u a b [a' s' Hw|a' key isDone]|a called evs _] Hinv; simpl.
  - by rewrite (record_same_tracking _ _ _ Hw).
  - assert (∀ evs, completed (trace a' ++ evs) name
                   ∨ (∃ u0 key0 d0, Handshake u0 key0 d0 ∈ trace a' ++ evs
                                    ∧ progress_prefix +:+ u0 = name)
                   ∨ _) as Hold
      by (intros evs;
          destruct Hinv as [Hdone|[(u0 & key0 & d0 & Hin & Hu0)|Hkept]];
          [left; by apply completed_app
          |right; left; exists u0, key0, d0; split; [apply elem_of_app; by left | done]
          |right; right; exact Hkept]).
    destruct (decide (progress_prefix +:+ u = name)) as [Hcollide|Hfree].
    { right. left. exists u, key, isDone. split; [|done].
      destruct isDone.
      - rewrite commit_handler_completion. simpl.
        apply elem_of_app. right. apply list_elem_of_here.
      - rewrite commit_handler_checkpoint. simpl.
        apply elem_of_app. right. apply list_elem_of_here. }
    destruct isDone.
    + rewrite commit_handler_completion. simpl.
      destruct (decide (u = name)) as [->|Hne].
      { left. exists key. apply elem_of_app. right. apply list_elem_of_here. }
      destruct (Hold [Handshake u key true;
                      Recorded u (MarshalMigrationPayload (tx a'))])
        as [?|[?|[_ Htx]]]; [by left | by right; left |].
      right. right.
      by rewrite record_delete_ne, record_put_ne.
    + rewrite commit_handler_checkpoint. simpl.
      destruct (Hold [Handshake u key false])
        as [?|[?|[_ Htx]]]; [by left | by right; left |].
      right. right. destruct key; [|done]. by rewrite record_put_ne.
  - destruct Hinv as [Hdone|[(u0 & key0 & d0 & Hin & Hu0)|Hkept]].
    + left. by apply completed_app.
    + right. left. exists u0, key0, d0. split; [apply elem_of_app; by left | done].
    + by right; right.
Qed.

(** Without a completion handshake of the unit [name], and when [name] is
    not the checkpoint key of a registered unit, [Apply] leaves the entry
    under [name] as it found it. *)
Lemma Apply_entry_kept {env : Externals} (m : Migrator) (s : Store)
    (datadir : string) (mdbx : bool) (name : string) :
  Forall well_behaved (Migrations m) →
  ¬ completed (events (Apply m s datadir mdbx)) name →
  (∀ u, u ∈ names m → progress_prefix +:+ u ≠ name) →
  store_get (database (Apply m s datadir mdbx)) dbutils.Migrations name
  = store_get s dbutils.Migrations name.
Proof.
  intros Hbodies Hsilent Hfree.
  destruct (Apply_cases m s datadir mdbx)
    as [[_ ->]|[(dup & _ & ->)|(_ & _ & st & tr & Hrun & Htr & Hloop & Hout)]];
    [done..|].
  pose proof (Apply_invariant
                (entry_kept name (store_get s dbutils.Migrations name))
                m s datadir mdbx Hbodies
                (engine_step_entry_kept name _)
                (or_intror (or_intror (conj eq_refl eq_refl)))) as Hkept.
  rewrite Hrun in Hkept. simpl in Hkept. unfold entry_kept in Hkept.
  rewrite Htr in Hkept.
  assert (¬ completed tr name) as Hsilent'.
  { intros Hdone. apply Hsilent.
    destruct (result _); destruct Hout as [_ ->]; [done|].
    by apply (completed_loop_events tr None). }
  destruct Hkept as [?|[(u & key & d & Hin & Hu)|[Hdb Htx]]]; [done| |].
  { destruct (loop_trace_event _ _ _ _ _ Hloop Hin) as (v & Hv & _ & [= Hname]).
    destruct (Hfree u); [|done]. rewrite Hname. apply list_elem_of_fmap. eauto. }
  destruct (result _); destruct Hout as [-> _]; [done|].
  rewrite store_get_put.
  by rewrite bool_decide_eq_false_2 by (intros [? _]; done).
Qed.

(** A completion handshake leaves its record in the database, whatever
    [Apply] returns in the end. *)
Lemma Apply_completed_record {env : Externals} (m : Migrator) (s : Store)
    (datadir : string) (mdbx : bool) (name : string) :
  Forall well_behaved (Migrations m) →
  has_prefix name = false →
  completed (events (Apply m s datadir mdbx)) name →
  has_record (database (Apply m s datadir mdbx)) name.
Proof.
  intros Hbodies Hname Hdone.
  destruct (Apply_cases m s datadir mdbx)
    as [[_ Hout]|[(dup & _ & Hout)|(_ & _ & st & tr & Hrun & Htr & _ & Hout)]].
  1, 2: rewrite Hout in Hdone; by destruct Hdone as [key ?%elem_of_nil].
  pose proof (Apply_invariant (completion_keeps_record name) m s datadir mdbx
                Hbodies (λ a b, engine_step_completion_keeps name a b Hname))
    as Hkeeps.
  rewrite Hrun in Hkeeps. simpl in Hkeeps.
  unfold completion_keeps_record in Hkeeps. rewrite Htr in Hkeeps.
  assert (completed tr name) as Hdone'.
  { destruct (result _); destruct Hout as [_ Hev]; rewrite Hev in Hdone; [done|].
    by apply (completed_loop_events tr None) in Hdone. }
  destruct Hkeeps as [Hdb Htx]; [by intros [key ?%elem_of_nil] | done |].
  destruct (result _); destruct Hout as [-> _]; [done|].
  by apply has_record_put.
Qed.

Lemma finished_completed {env : Externals} (m : Migrator) (s : Store)
    (datadir : string) (mdbx : bool) (name : string) :
  name ∈ finished (events (Apply m s datadir mdbx)) →
  completed (events (Apply m s datadir mdbx)) name.
Proof.
  destruct (Apply_trace m s datadir mdbx) as [[-> _]|(tr & Hloop & ->)].
  { by intros ?%elem_of_nil. }
  rewrite (proj1 (finished_loop_events _ _ _)), completed_loop_events.
  by intros [_ ?]%(loop_trace_finished _ _ _ _ name Hloop).
Qed.



(** A loop that ends with an error ran the pending units in order up to the
    one whose body returned last: the units before it finished, it was
    invoked and did not finish, and the units after it were not invoked. *)
Lemma loop_trace_stops (applied : gmap string bytes) (ms : list Migration)
    (r : option error) (tr : list Event) (err : error) :
  loop_trace applied ms r tr → r = Some err →
  ∃ pre v post r0,
    filter (λ v, is_applied applied (Name v) = false) ms = pre ++ v :: post
    ∧ invoked tr = Name <$> (pre ++ [v])
    ∧ finished tr = Name <$> pre
    ∧ last tr = Some (Returned (Name v) r0)
    ∧ (r0 = Some err ∨ (r0 = None ∧ err = Errorf_not_called (Name v))).
Proof.
  induction 1 as [|v ms r tr Happ _ IH|v ms r tr evs Happ [Hall _] _ _ IH
                  |v ms evs err' Happ [Hall _]|v ms evs Happ [Hall _] _];
    intros Hr.
  - done.
  - rewrite filter_cons_False by congruence. by apply IH.
  - destruct (IH Hr) as (pre & w & post & r0 & Hf & Hinv & Hfin & Hlast & Hr0).
    destruct (invoked_unit_events _ _ Hall) as [Hinv0 Hfin0].
    exists (v :: pre), w, post, r0.
    rewrite filter_cons_True, Hf by done. split; [done|].
    split; [|split; [|split; [|done]]].
    + change ((v :: pre) ++ [w]) with (v :: (pre ++ [w])).
      rewrite fmap_cons, <- Hinv. unfold invoked in *. simpl.
      by rewrite omap_app, Hinv0.
    + rewrite fmap_cons, <- Hfin. unfold finished in *. simpl.
      by rewrite omap_app, Hfin0.
    + rewrite last_cons, last_app, !last_cons, Hlast. done.
  - injection Hr as ->.
    destruct (invoked_unit_events _ _ Hall) as [Hinv0 Hfin0].
    exists [], v, (filter (λ v, is_applied applied (Name v) = false) ms),
      (Some err).
    rewrite filter_cons_True by done. split; [done|].
    split; [|split; [|split; [|by left]]].
    + unfold invoked in *. simpl. by rewrite omap_app, Hinv0.
    + unfold finished in *. simpl. by rewrite omap_app, Hfin0.
    + by rewrite app_comm_cons, last_snoc.
  - injection Hr as <-.
    destruct (invoked_unit_events _ _ Hall) as [Hinv0 Hfin0].
    exists [], v, (filter (λ v, is_applied applied (Name v) = false) ms), None.
    rewrite filter_cons_True by done. split; [done|].
    split; [|split; [|split; [|by right]]].
    + unfold invoked in *. simpl. by rewrite omap_app, Hinv0.
    + unfold finished in *. simpl. by rewrite omap_app, Hfin0.
    + by rewrite app_comm_cons, last_snoc.
Qed.

(** * The claims on records *)

(** C1, as amended: when the body of a unit returns nil and the run has no
    completion handshake of that unit, [Apply] returns the error that wraps
    [ErrMigrationCommitNotCalled] and names the unit, and the commit handler
    writes no Applied-Migration Record for the unit; when the bodies leave
    the migrations bucket to the engine, the database holds no record under
    a name that does not begin with "_progress_", and under a name that is
    not the checkpoint key of a registered unit the entry of the migrations
    bucket is afterwards what it was before, so that no record is there
    when none was. *)
Theorem commit_not_called {env : Externals} (m : Migrator) (s : Store)
    (datadir : string) (mdbx : bool) (name : string) :
  NoDup (names m) →
  returned (events (Apply m s datadir mdbx)) name None →
  ¬ completed (events (Apply m s datadir mdbx)) name →
  result (Apply m s datadir mdbx) = Some (Errorf_not_called name)
  ∧ errors_Is (Errorf_not_called name) ErrMigrationCommitNotCalled = true
  ∧ Error (Errorf_not_called name)
    = "migration commit function was not called: " +:+ name
  ∧ ¬ recorded (events (Apply m s datadir mdbx)) name
  ∧ (Forall well_behaved (Migrations m) →
     ((∀ u, u ∈ names m → progress_prefix +:+ u ≠ name) →
      store_get (database (Apply m s datadir mdbx)) dbutils.Migrations name
      = store_get s dbutils.Migrations name
      ∧ (¬ has_record s name →
         ¬ has_record (database (Apply m s datadir mdbx)) name))
     ∧ (has_prefix name = false →
        ¬ has_record (database (Apply m s datadir mdbx)) name)).
Proof.
  intros _ Hret Hnot. unfold returned in Hret.
  destruct (Apply_trace m s datadir mdbx) as [[Hnil _]|(tr & Hloop & Hev)].
  { rewrite Hnil in Hret. by apply elem_of_nil in Hret. }
  assert (Returned name None ∈ tr) as Hret'.
  { rewrite Hev in Hret. by apply elem_of_loop_events in Hret. }
  assert (∀ key, Handshake name key true ∉ tr) as Hnot'.
  { intros key Hin. apply Hnot. exists key. rewrite Hev. apply elem_of_app. by left. }
  pose proof (loop_trace_not_called _ _ _ _ _ Hloop Hret' Hnot') as Hres.
  split; [done|]. split; [done|]. split; [done|]. split.
  - intros [payload Hin]. rewrite Hev in Hin.
    apply elem_of_loop_events in Hin; [|done].
    destruct (loop_trace_recorded _ _ _ _ _ _ Hloop Hin) as [key Hkey].
    by apply (Hnot' key).
  - intros Hbodies. split.
    + intros Hfree.
      pose proof (Apply_entry_kept m s datadir mdbx name Hbodies Hnot Hfree)
        as Hkept.
      split; [done|]. unfold has_record. by rewrite Hkept.
    + intros Hname. unfold has_record.
      rewrite (Apply_entry_kept m s datadir mdbx name Hbodies Hnot)
        by (intros u _; by apply checkpoint_key_ne).
      intros Hrec.
      destruct (loop_trace_event _ _ _ _ _ Hloop Hret') as (v & _ & Happ & [= Hv]).
      rewrite <- Hv in Happ.
      assert (is_applied (AppliedMigrations s false) name = true)
        by by apply is_applied_spec.
      congruence.
Qed.

(** TestCommitCallRequired. *)
Lemma commit_not_called_witness :
  let o := Apply (env := test_externals) migrations_commit_required ∅ "" false in
  result o = Some (Errorf_not_called "one") ∧ ¬ has_record (database o) "one".
Proof.
  destruct (commit_not_called (env := test_externals)
              migrations_commit_required ∅ "" false "one")
    as (Hres & _ & _ & _ & Hdb).
  - apply NoDup_singleton.
  - vm_compute. apply list_elem_of_further, list_elem_of_here.
  - intros [key Hkey]. vm_compute in Hkey.
    apply elem_of_cons in Hkey as [?|Hkey]; [discriminate|].
    apply elem_of_cons in Hkey as [?|Hkey]; [discriminate|].
    by apply elem_of_nil in Hkey.
  - split; [exact Hres|]. apply Hdb.
    + constructor; [|constructor]. intros tmpdir progress; simpl; done.
    + reflexivity.
Defined.

(** C1, as stated, fails in its last part, in two ways. A body that puts an
    entry under its own name into the migrations bucket, has it committed by
    a checkpoint invocation and returns nil gets the CommitNotCalled error,
    and the record is in the database. And when the unit "x" completes and
    then saves a checkpoint, the unit named "_progress_x", which returns nil
    without completing, finds that checkpoint under its own name. *)
Lemma record_present_despite_commit_not_called :
  (let forges := λ (_ : string) (_ : option bytes),
     Put dbutils.Migrations "one" [1%Z] (OnLoadCommit None false Return) in
   let o := Apply (env := test_externals)
              (MkMigrator [MkMigration "one" forges]) ∅ "" false in
   returned (events o) "one" None
   ∧ ¬ completed (events o) "one"
   ∧ result o = Some (Errorf_not_called "one")
   ∧ store_get (database o) dbutils.Migrations "one" = Some [1%Z]
   ∧ "one" ∈ applied_set (database o))
  ∧ (let checkpoints := λ (_ : string) (_ : option bytes),
       OnLoadCommit None true (λ _, OnLoadCommit (Some [7%Z]) false Return) in
     let m := MkMigrator [MkMigration "x" checkpoints;
                          MkMigration "_progress_x" never_commits] in
     let o := Apply (env := test_externals) m ∅ "" false in
     NoDup (names m)
     ∧ returned (events o) "_progress_x" None
     ∧ ¬ completed (events o) "_progress_x"
     ∧ result o = Some (Errorf_not_called "_progress_x")
     ∧ store_get (database o) dbutils.Migrations "_progress_x" = Some [7%Z]).
Proof.
  split.
  - intros forges o. split; [|split; [|split; [|split]]].
    + vm_compute. do 2 apply list_elem_of_further. apply list_elem_of_here.
    + intros [key Hkey]. vm_compute in Hkey.
      repeat (apply elem_of_cons in Hkey as [?|Hkey]; [discriminate|]).
      by apply elem_of_nil in Hkey.
    + vm_compute. reflexivity.
    + vm_compute. reflexivity.
    + apply elem_of_applied_set. split; [eexists; vm_compute|]; reflexivity.
  - intros checkpoints m o. split; [|split; [|split; [|split]]].
    + apply NoDup_cons. split; [|apply NoDup_singleton].
      intros Hin. apply list_elem_of_singleton in Hin. discriminate.
    + vm_compute. do 7 apply list_elem_of_further. apply list_elem_of_here.
    + intros [key Hkey]. vm_compute in Hkey.
      repeat (apply elem_of_cons in Hkey as [?|Hkey]; [discriminate|]).
      by apply elem_of_nil in Hkey.
    + vm_compute. reflexivity.
    + vm_compute. reflexivity.
Qed.


(** C3, as amended: a unit whose record exists before [Apply] runs and whose
    name does not begin with "_progress_" is never invoked. The other
    un-applied units are executed in registration order: all of them run to
    completion when [Apply] returns nil; when [Apply] returns the error of a
    failing unit, every pending unit before that unit has run to completion,
    that unit was invoked and is the last to return, and no later unit is
    invoked. When the bodies leave the migrations bucket to the engine, the
    final applied set contains the pre-marked name and the name of every
    unit that ran to completion, as far as it does not begin with
    "_progress_". *)
Theorem recorded_unit_skipped {env : Externals} (m : Migrator) (s : Store)
    (datadir : string) (mdbx : bool) (name : string) :
  has_record s name → has_prefix name = false →
  ((name ∉ invoked (events (Apply m s datadir mdbx)))
   ∧ ∀ err, ¬ returned (events (Apply m s datadir mdbx)) name err)
  ∧ invoked (events (Apply m s datadir mdbx))
      `prefix_of` (Name <$> PendingMigrations m s)
  ∧ (result (Apply m s datadir mdbx) = None →
     invoked (events (Apply m s datadir mdbx)) = Name <$> PendingMigrations m s
     ∧ finished (events (Apply m s datadir mdbx)) = Name <$> PendingMigrations m s)
  ∧ (∀ err, result (Apply m s datadir mdbx) = Some err → NoDup (names m) →
       ∃ pre v post r0,
         PendingMigrations m s = pre ++ v :: post
         ∧ invoked (events (Apply m s datadir mdbx)) = Name <$> (pre ++ [v])
         ∧ finished (events (Apply m s datadir mdbx)) = Name <$> pre
         ∧ last (events (Apply m s datadir mdbx)) = Some (Returned (Name v) r0)
         ∧ (r0 = Some err ∨ (r0 = None ∧ err = Errorf_not_called (Name v))))
  ∧ (Forall well_behaved (Migrations m) →
     name ∈ applied_set (database (Apply m s datadir mdbx))
     ∧ ∀ x, x ∈ finished (events (Apply m s datadir mdbx)) →
            has_prefix x = false →
            x ∈ applied_set (database (Apply m s datadir mdbx))).
Proof.
  intros Hrec Hname.
  assert (is_applied (AppliedMigrations s false) name = true) as Happ
    by by apply is_applied_spec.
  split; [split|split; [|split; [|split]]].
  - intros Hin%elem_of_invoked.
    by eapply (applied_unit_silent m s datadir mdbx name).
  - intros err Hin. by eapply (applied_unit_silent m s datadir mdbx name).
  - rewrite PendingMigrations_filter.
    destruct (Apply_trace m s datadir mdbx) as [[-> _]|(tr & Hloop & ->)].
    + apply prefix_nil.
    + rewrite (proj2 (finished_loop_events _ _ _)).
      by eapply loop_trace_invoked_prefix.
  - intros Hok. rewrite PendingMigrations_filter.
    destruct (Apply_cases m s datadir mdbx)
      as [[Hnil Hout]|[(dup & _ & Hout)|(_ & _ & st & tr & _ & _ & Hloop & Hout)]].
    + rewrite Hout, Hnil. done.
    + rewrite Hout in Hok. done.
    + rewrite Hok in Hout, Hloop. destruct Hout as [_ ->].
      destruct (loop_trace_success _ _ _ _ Hloop eq_refl) as [Hinv Hfin].
      destruct (finished_loop_events tr None (schema_version mdbx)) as [-> ->].
      done.
  - intros err Herr Hnd. rewrite PendingMigrations_filter.
    destruct (Apply_cases m s datadir mdbx)
      as [[_ Hout]|[(dup & ? & _)|(_ & _ & st & tr & _ & _ & Hloop & Hout)]].
    + rewrite Hout in Herr. done.
    + done.
    + rewrite Herr in Hout, Hloop. destruct Hout as [_ ->].
      by apply (loop_trace_stops _ _ _ _ err Hloop).
  - intros Hbodies. split.
    + apply elem_of_applied_set. split; [|done]. unfold has_record.
      rewrite Apply_entry_kept; try done.
      * intros [key Hkey].
        by eapply (applied_unit_silent m s datadir mdbx name).
      * intros u _. by apply checkpoint_key_ne.
    + intros x Hx Hpx. apply elem_of_applied_set. split; [|done].
      apply Apply_completed_record; try done. by apply finished_completed.
Qed.

(** TestWhenNonFirstMigrationAlreadyApplied: "two" is pre-marked, "one" is
    invoked, and both names are in the applied set afterwards. *)
Lemma recorded_unit_skipped_witness :
  let fails := λ (_ : string) (_ : option bytes),
    Return (Some (MkError None "shouldn't been executed")) in
  let m := MkMigrator [MkMigration "one" complete_at_once; MkMigration "two" fails] in
  let s := store_put ∅ dbutils.Migrations "two" [1%Z] in
  ("two" ∉ invoked (events (Apply (env := test_externals) m s "" false)))
  ∧ "two" ∈ applied_set (database (Apply (env := test_externals) m s "" false))
  ∧ "one" ∈ applied_set (database (Apply (env := test_externals) m s "" false)).
Proof.
  intros fails m s.
  destruct (recorded_unit_skipped (env := test_externals) m s "" false "two")
    as [[Hskip _] [_ [_ [_ Hset]]]].
  - eexists. vm_compute. reflexivity.
  - reflexivity.
  - split; [exact Hskip|].
    destruct Hset as [Htwo Hall].
    + constructor; [|constructor; [|constructor]];
        intros tmpdir progress; simpl; done.
    + split; [exact Htwo|]. apply Hall; [|reflexivity].
      vm_compute. apply list_elem_of_here.
Defined.

(** * Applying twice *)



